(** * github-releases-notifier: the release checker

    A shallow embedding of [releasechecker.go]: the [Checker] with its
    in-memory map of last seen releases, [LoadReleases], [SaveReleases],
    [Run] (its start, the body of its inner loop, a pass over the watch
    list, and any number of rounds of its endless loop), and [query].

    Go values are modelled as follows.
    - [string] is a sequence of bytes: Rocq's [string].
    - [map[string]Repository] may be [nil]: [option (gmap string Repository.t)],
      [None] being the nil map.  Reading a nil map finds nothing, writing to
      it panics.
    - [time.Time] is the instant (nanoseconds since the Unix epoch) with
      the zone offset it was parsed with.
    - [githubv4.ID] is [interface{}]: a tagged value, a string or not.
    - a panic ends the computation, with the world as it was then.
    - the network, the disk and the log are outside the program: the answers
      of the outside world are arguments ([QueryResponse], the fault of a
      read, [write_outcome]) and what the program does is recorded in a
      trace of events.  A send on the channel is an event; the receiver is
      taken to be there.
    - the JSON text of the state file is modelled up to its layout, and the
      JSON form of one [Repository] is an interface ([JSONCodec]): the
      struct declarations and [encoding/json] are not part of the
      checker. *)

From Stdlib Require Import ZArith Ascii String.
From stdpp Require Import base option list strings gmap fin_maps.

Local Open Scope string_scope.
Local Open Scope Z_scope.
Local Open Scope list_scope.

(** ** Library types *)

Module time.

(** [time.Time] as read from JSON: no monotonic clock reading. *)
Record Time : Type := mkTime {
  unixNano : Z;      (* the instant *)
  zoneOffset : Z     (* seconds east of UTC *)
}.

(** [t.After(u)]: the instant of [t] is after the one of [u]. *)
Definition After (t u : Time) : bool := Z.ltb (unixNano u) (unixNano t).

(** The zero [Time]: January 1 of the year 1, UTC. *)
Definition zero : Time := mkTime (-62135596800000000000) 0.

End time.

Module url.

Record Userinfo : Type := mkUserinfo {
  username : string;
  password : string;
  passwordSet : bool
}.

Record URL : Type := mkURL {
  Scheme : string;
  Opaque : string;
  User : option Userinfo;
  Host : string;
  Path : string;
  RawPath : string;
  ForceQuery : bool;
  RawQuery : string;
  Fragment : string
}.

Definition zero : URL := mkURL "" "" None "" "" "" false "" "".

End url.

(** [strings.Split(s, "/")] for the one-byte separator the checker uses:
    the pieces between the separators, one more than there are separators
    (so never empty: [Split("", "/")] is [[""]]). *)
Fixpoint Split (s : string) (sep : ascii) : list string :=
  match s with
  | EmptyString => [EmptyString]
  | String c rest =>
      if Ascii.eqb c sep then EmptyString :: Split rest sep
      else match Split rest sep with
           | [] => [String c EmptyString]
           | p :: ps => String c p :: ps
           end
  end.

Definition slash : ascii := "/"%char.

(** ** Data model *)

Module Release.
Record t : Type := mk {
  ID : string;
  Name : string;
  Description : string;
  URL : url.URL;
  PublishedAt : time.Time
}.
Definition zero : t := mk "" "" "" url.zero time.zero.
End Release.

Module Repository.
Record t : Type := mk {
  ID : string;
  Name : string;
  Owner : string;
  Description : string;
  URL : url.URL;
  Release : Release.t
}.
Definition zero : t := mk "" "" "" "" url.zero Release.zero.
End Repository.

(** The in-memory state, [Checker.releases]. *)
Abbreviation relmap := (gmap string Repository.t).

Record Checker : Type := mkChecker {
  releases : option relmap;
  filepath : string
}.

Definition set_releases (m : option relmap) (c : Checker) : Checker :=
  mkChecker m (filepath c).

(** ** The answer of the GraphQL client *)

(** A value of type [interface{}] as the JSON decoder produces it. *)
Inductive GoValue : Type :=
| VString (s : string)
| VNumber (n : Z)
| VBool (b : bool)
| VNil.

(** [v.(string)] with the comma-ok form. *)
Definition as_string (v : GoValue) : option string :=
  match v with
  | VString s => Some s
  | _ => None
  end.

(** [githubv4.URI] wraps a [*url.URL], which may be nil. *)
Record Node : Type := mkNode {
  node_ID : GoValue;
  node_Name : string;
  node_Description : string;
  node_URL : option url.URL;
  node_PublishedAt : time.Time
}.

(** The [query] struct after [client.Query] has filled it. *)
Record QueryData : Type := mkQueryData {
  q_ID : GoValue;
  q_Name : string;
  q_Description : string;
  q_URL : option url.URL;
  q_Edges : list Node
}.

Inductive QueryResponse : Type :=
| QueryFailed (msg : string)       (* transport error, timeout, GraphQL error *)
| QueryFilled (d : QueryData).

Inductive error : Type :=
| ErrClient (msg : string)
| ErrRepositoryID (id : GoValue)          (* can't convert repository id to string *)
| ErrNoReleases (owner name : string)     (* can't find any releases for owner/name *)
| ErrReleaseID (id : GoValue)             (* can't convert release id to string *)
| ErrReadFile                             (* failed to read releases file *)
| ErrUnmarshal                            (* failed to unmarshal releases *)
| ErrMarshal                              (* failed to marshal releases *)
| ErrWriteFile.                           (* failed to write releases file *)

Inductive panic : Type :=
| IndexOutOfRange (index len : nat)
| NilMapAssignment
| NilPointerDereference.

(** What a Go function call comes to: it returns, or it panics. *)
Inductive outcome (A : Type) : Type :=
| Returns (a : A)
| Panics (p : panic).
Arguments Returns {A} a.
Arguments Panics {A} p.

(** [c.query(owner, name)] after the client has answered [resp]. *)
Definition query_result (resp : QueryResponse) (owner name : string)
  : outcome (Repository.t * option error) :=
  match resp with
  | QueryFailed msg => Returns (Repository.zero, Some (ErrClient msg))
  | QueryFilled d =>
      match as_string (q_ID d) with
      | None => Returns (Repository.zero, Some (ErrRepositoryID (q_ID d)))
      | Some repositoryID =>
          match q_Edges d with
          | [] => Returns (Repository.zero, Some (ErrNoReleases owner name))
          | latestRelease :: _ =>
              match as_string (node_ID latestRelease) with
              | None => Returns (Repository.zero, Some (ErrReleaseID (q_ID d)))
              | Some releaseID =>
                  match q_URL d, node_URL latestRelease with
                  | Some repoURL, Some relURL =>
                      Returns
                        (Repository.mk repositoryID (q_Name d) owner
                           (q_Description d) repoURL
                           (Release.mk releaseID (node_Name latestRelease)
                              (node_Description latestRelease) relURL
                              (node_PublishedAt latestRelease)),
                         None)
                  | _, _ => Panics NilPointerDereference
                  end
              end
          end
      end
  end.

(** ** The state file *)

(** How one [Repository] value is written in JSON depends on the declaration
    of the struct and on the encoders of [url.URL] and [time.Time].  The
    checker only hands the whole map to [encoding/json], so the encoding of
    a map element is an interface here. *)

(** What [json.Unmarshal] makes of the JSON value of one element. *)
Inductive decoded : Type :=
| Fits (r : Repository.t)      (* every field fitted *)
| Misfits (r : Repository.t)   (* a value of the wrong JSON type was skipped:
                                  the element is stored as far as it was
                                  filled, the error is kept, decoding goes on *)
| Breaks.                      (* the [UnmarshalJSON] of a field failed (a
                                  string that is no time): decoding stops *)

(** [enc] is what [json.Marshal] does to one element; it can fail, for a
    time whose year does not fit four digits.  [dec] is what
    [json.Unmarshal] does to the JSON value of one element, decoded into a
    fresh [Repository]. *)
Class JSONCodec : Type := {
  jvalue : Type;
  enc : Repository.t -> option jvalue;
  dec : jvalue -> decoded
}.

Section Checker.

Context `{JSONCodec}.

(** A JSON document as far as a [map[string]Repository] can tell documents
    apart: [null], an object, or some other value. *)
Inductive json : Type :=
| JNull
| JObject (members : list (string * jvalue))
| JOther.

(** The bytes of a file, up to the layout of JSON text. *)
Inductive data : Type :=
| Text (j : json)
| Garbage.

Abbreviation disk := (gmap string data).

(** [json.MarshalIndent(m, "", "  ")] for a map: [null] for the nil map, else
    an object with one member per key.  It fails when an element does. *)
Definition marshal_member (kv : string * Repository.t) : option (string * jvalue) :=
  j ← enc kv.2; Some (kv.1, j).

Definition MarshalIndent (m : option relmap) : option data :=
  match m with
  | None => Some (Text JNull)
  | Some m => members ← mapM marshal_member (map_to_list m); Some (Text (JObject members))
  end.

(** The members of an object are stored one after the other, each decoded
    into a fresh element: a later member with the same key replaces an
    earlier one.  [ok] tells that no error has been kept so far. *)
Fixpoint store (members : list (string * jvalue)) (m : relmap) (ok : bool)
  : relmap * bool :=
  match members with
  | [] => (m, ok)
  | (key, j) :: rest =>
      match dec j with
      | Fits r => store rest (<[key := r]> m) ok
      | Misfits r => store rest (<[key := r]> m) false
      | Breaks => (m, false)
      end
  end.

(** [json.Unmarshal(bytes, &m)]: the new value of [m] and whether the call
    returned no error.  Text that is not JSON is refused before anything is
    stored; [null] sets the map to nil; an object is stored into the map
    that is there (a nil map is made first); any other value does not fit a
    map. *)
Definition Unmarshal (bytes : data) (m : option relmap) : option relmap * bool :=
  match bytes with
  | Garbage => (m, false)
  | Text JNull => (None, true)
  | Text JOther => (m, false)
  | Text (JObject members) =>
      let '(m', ok) := store members (default ∅ m) true in (Some m', ok)
  end.

(** ** The outside world *)

(** [os.ReadFile]: the bytes, or an error that is "does not exist" or not. *)
Inductive read_result : Type :=
| ReadBytes (bytes : data)
| ReadError (isNotExist : bool).

Definition ReadFile (fault : bool) (d : disk) (path : string) : read_result :=
  if fault then ReadError false
  else match d !! path with
       | Some bytes => ReadBytes bytes
       | None => ReadError true
       end.

(** [os.WriteFile] truncates and rewrites the file.  It can fail before it
    touches the file, or after it has truncated it. *)
Inductive write_outcome : Type :=
| WriteOk
| WriteFailsUntouched
| WriteFailsTruncated.

Definition WriteFile (wo : write_outcome) (d : disk) (path : string) (bytes : data)
  : disk * bool :=
  match wo with
  | WriteOk => (<[path := bytes]> d, true)
  | WriteFailsUntouched => (d, false)
  | WriteFailsTruncated => (<[path := Garbage]> d, false)
  end.

Inductive level : Type := LvlDebug | LvlInfo | LvlWarn | LvlError.

(** What the checker does, in order. *)
Inductive event : Type :=
| EvQuery (owner name : string)              (* c.client.Query *)
| EvLog (l : level) (msg : string)
| EvSend (r : Repository.t)                  (* releases <- r *)
| EvMapGet (key : string)                    (* c.releases[key] *)
| EvMapSet (key : string) (r : Repository.t) (* c.releases[key] = r *)
| EvSave (m : option relmap)                 (* c.SaveReleases() *)
| EvSleep.

Record World : Type := mkWorld {
  chk : Checker;
  dsk : disk;
  out : list event
}.

(** ** Computations *)

(** A piece of the checker runs in a world and comes to an end in a world:
    it returns there, or it panics there. *)
Inductive result (A : Type) : Type :=
| Done (a : A) (w : World)
| Crash (p : panic) (w : World).
Arguments Done {A} a w.
Arguments Crash {A} p w.

Definition final {A} (r : result A) : World :=
  match r with
  | Done _ w => w
  | Crash _ w => w
  end.

Definition returned {A} (r : result A) : bool :=
  match r with
  | Done _ _ => true
  | Crash _ _ => false
  end.

Definition M (A : Type) : Type := World -> result A.

Definition ret {A} (a : A) : M A := fun w => Done a w.

Definition bind {A B} (m : M A) (f : A -> M B) : M B :=
  fun w => match m w with
           | Done a w' => f a w'
           | Crash p w' => Crash p w'
           end.

Definition throw {A} (p : panic) : M A := fun w => Crash p w.

Definition emit (e : event) : M unit :=
  fun w => Done tt (mkWorld (chk w) (dsk w) (out w ++ [e])).

Definition get_releases : M (option relmap) :=
  fun w => Done (releases (chk w)) w.

Definition put_releases (m : option relmap) : M unit :=
  fun w => Done tt (mkWorld (set_releases m (chk w)) (dsk w) (out w)).

Definition read_file (fault : bool) : M read_result :=
  fun w => Done (ReadFile fault (dsk w) (filepath (chk w))) w.

Definition write_file (wo : write_outcome) (bytes : data) : M bool :=
  fun w => let '(d, ok) := WriteFile wo (dsk w) (filepath (chk w)) bytes in
           Done ok (mkWorld (chk w) d (out w)).

End Checker.

Arguments Done {_ _} a w.
Arguments Crash {_ _} p w.

Declare Scope go_scope.
Delimit Scope go_scope with go.
Notation "x <- m ;; k" := (bind m (fun x => k))
  (at level 100, m at next level, right associativity) : go_scope.
Notation "m ;; k" := (bind m (fun _ => k))
  (at level 100, right associativity) : go_scope.

Section Run.

Context `{JSONCodec}.
Local Open Scope go_scope.

Definition log (l : level) (msg : string) : M unit := emit (EvLog l msg).

(** [s[i]] on a slice. *)
Definition index (s : list string) (i : nat) : M string :=
  match s !! i with
  | Some x => ret x
  | None => throw (IndexOutOfRange i (length s))
  end.

(** [c.releases[key]] with the comma-ok form; a nil map has no entry. *)
Definition map_get (key : string) : M (option Repository.t) :=
  emit (EvMapGet key);;
  m <- get_releases;;
  ret (m ≫= (.!! key)).

(** [c.releases[key] = r]; a nil map panics. *)
Definition map_set (key : string) (r : Repository.t) : M unit :=
  m <- get_releases;;
  match m with
  | None => throw NilMapAssignment
  | Some m => emit (EvMapSet key r);; put_releases (Some (<[key := r]> m))
  end.

(** [LoadReleases] loads the saved releases from disk. *)
Definition LoadReleases (fault : bool) : M (option error) :=
  r <- read_file fault;;
  match r with
  | ReadError isNotExist =>
      if isNotExist then put_releases (Some ∅);; ret None
      else ret (Some ErrReadFile)
  | ReadBytes bytes =>
      m <- get_releases;;
      let '(m', ok) := Unmarshal bytes m in
      put_releases m';;
      if ok then ret None else ret (Some ErrUnmarshal)
  end.

(** [SaveReleases] persists the current releases to disk. *)
Definition SaveReleases (wo : write_outcome) : M (option error) :=
  m <- get_releases;;
  emit (EvSave m);;
  match MarshalIndent m with
  | None => ret (Some ErrMarshal)
  | Some bytes =>
      ok <- write_file wo bytes;;
      if ok then ret None else ret (Some ErrWriteFile)
  end.

(** [c.query(owner, name)]. *)
Definition query (resp : QueryResponse) (owner name : string)
  : M (Repository.t * option error) :=
  emit (EvQuery owner name);;
  match query_result resp owner name with
  | Returns r => ret r
  | Panics p => throw p
  end.

(** The save after a change of the map, with its error logged. *)
Definition save_logged (wo : write_outcome) : M unit :=
  err <- SaveReleases wo;;
  match err with
  | Some _ => log LvlError "failed to save releases"
  | None => ret tt
  end.

(** What the world answers while one repository is processed. *)
Record answers : Type := mkAnswers {
  resp : QueryResponse;
  wout : write_outcome
}.

(** The body of the inner loop of [Run], for one [repoName]. *)
Definition body (a : answers) (repoName : string) : M unit :=
  let s := Split repoName slash in
  owner <- index s 0;;
  name <- index s 1;;
  q <- query (resp a) owner name;;
  let '(nextRepo, err) := q in
  match err with
  | Some _ => log LvlWarn "failed to query the repository's releases"
  | None =>
      log LvlInfo "repository checked";;
      cur <- map_get repoName;;
      match cur with
      | None =>
          map_set repoName nextRepo;;
          save_logged (wout a)
      | Some currRepo =>
          if time.After (Release.PublishedAt (Repository.Release nextRepo))
                        (Release.PublishedAt (Repository.Release currRepo))
          then
            log LvlInfo "new release found";;
            emit (EvSend nextRepo);;
            map_set repoName nextRepo;;
            save_logged (wout a)
          else
            log LvlDebug "no new release for repository"
      end
  end.

(** One pass of [for _, repoName := range repositories]; the [i]th
    repository of the pass gets the answers [env i]. *)
Fixpoint cycle_from (env : nat -> answers) (i : nat) (repositories : list string)
  : M unit :=
  match repositories with
  | [] => ret tt
  | repoName :: rest => body (env i) repoName;; cycle_from env (S i) rest
  end.

Definition cycle (env : nat -> answers) (repositories : list string) : M unit :=
  cycle_from env 0 repositories.

(** The start of [Run]: the releases are loaded when the map is nil, and a
    failed load leaves an empty map. *)
Definition Run_start (fault : bool) : M unit :=
  m <- get_releases;;
  match m with
  | Some _ => ret tt
  | None =>
      err <- LoadReleases fault;;
      match err with
      | Some _ => log LvlError "failed to load releases";; put_releases (Some ∅)
      | None => ret tt
      end
  end.

(** The first [n] rounds of the endless loop of [Run]; round [k] gets the
    answers [env k]. *)
Fixpoint rounds (env : nat -> nat -> answers) (k n : nat) (repositories : list string)
  : M unit :=
  match n with
  | O => ret tt
  | S n' => cycle (env k) repositories;; emit EvSleep;; rounds env (S k) n' repositories
  end.

Definition Run (fault : bool) (env : nat -> nat -> answers) (n : nat)
  (repositories : list string) : M unit :=
  Run_start fault;; rounds env 0 n repositories.

End Run.

(** ** Vocabulary of the properties *)

(** The values sent on the channel, in order. *)
Fixpoint sent (tr : list event) : list Repository.t :=
  match tr with
  | [] => []
  | EvSend r :: rest => r :: sent rest
  | _ :: rest => sent rest
  end.

(** The repositories asked for, in order. *)
Fixpoint queried (tr : list event) : list (string * string) :=
  match tr with
  | [] => []
  | EvQuery owner name :: rest => (owner, name) :: queried rest
  | _ :: rest => queried rest
  end.

(** The keys of the map the trace reads or writes. *)
Fixpoint touched (tr : list event) : list string :=
  match tr with
  | [] => []
  | EvMapGet key :: rest => key :: touched rest
  | EvMapSet key _ :: rest => key :: touched rest
  | _ :: rest => touched rest
  end.

(** The number of calls of [SaveReleases]. *)
Fixpoint saves (tr : list event) : nat :=
  match tr with
  | [] => O
  | EvSave _ :: rest => S (saves rest)
  | _ :: rest => saves rest
  end.

(** Every write to the map is followed at once by a save of a map that
    holds what was written. *)
Fixpoint write_through (tr : list event) : Prop :=
  match tr with
  | [] => True
  | EvMapSet key r :: rest =>
      (exists m rest', rest = EvSave (Some m) :: rest' /\ m !! key = Some r)
      /\ write_through rest
  | _ :: rest => write_through rest
  end.

(** A watch key of the form owner/name, both parts non-empty. *)
Definition well_formed (repoName : string) : Prop :=
  exists owner name,
    Split repoName slash = [owner; name] /\ owner <> "" /\ name <> "".

(** A response that [query] turns into a result without a nil URL in it. *)
Definition urls_present (r : QueryResponse) : bool :=
  match r with
  | QueryFailed _ => true
  | QueryFilled d =>
      match as_string (q_ID d), q_Edges d with
      | Some _, latestRelease :: _ =>
          match as_string (node_ID latestRelease) with
          | Some _ => bool_decide (is_Some (q_URL d)) && bool_decide (is_Some (node_URL latestRelease))
          | None => true
          end
      | _, _ => true
      end
  end.

(** ** The rest of the program: [main] *)

(** [Config] of env and args, as [arg.MustParse] has filled it. *)
Record Config : Type := mkConfig {
  GithubToken : string;
  Interval : Z;                 (* a [time.Duration], in nanoseconds *)
  LogLevel : string;
  Repositories : list string;
  SlackHook : string;
  IgnoreNonstable : bool;
  ReleasesFile : string
}.

(** [strings.ToLower] on a string of ASCII bytes: the letters A to Z are
    moved to a to z, byte by byte.  (On other strings Go maps
    [unicode.ToLower] over the runes; that branch is not modelled, and what
    is proved of [ToLower] is proved of ASCII strings.) *)
Definition isASCII (s : string) : bool :=
  forallb (fun c => (nat_of_ascii c <? 128)%nat) (list_ascii_of_string s).

Definition lower (c : ascii) : ascii :=
  if (65 <=? nat_of_ascii c)%nat && (nat_of_ascii c <=? 90)%nat
  then ascii_of_nat (nat_of_ascii c + 32)
  else c.

Fixpoint ToLower (s : string) : string :=
  match s with
  | EmptyString => EmptyString
  | String c rest => String (lower c) (ToLower rest)
  end.

(** The options of [level.NewFilter]: what each lets through. *)
Inductive filter_option : Type := AllowDebug | AllowInfo | AllowWarn | AllowError.

Definition allowed (f : filter_option) (l : level) : bool :=
  match f, l with
  | AllowDebug, _ => true
  | AllowInfo, LvlDebug => false
  | AllowInfo, _ => true
  | AllowWarn, (LvlWarn | LvlError) => true
  | AllowWarn, _ => false
  | AllowError, LvlError => true
  | AllowError, _ => false
  end.

(** The [switch strings.ToLower(c.LogLevel)] of [main]. *)
Definition level_filter (c : Config) : filter_option :=
  let l := ToLower (LogLevel c) in
  if String.eqb l "debug" then AllowDebug
  else if String.eqb l "warn" then AllowWarn
  else if String.eqb l "error" then AllowError
  else AllowInfo.

(** The lines of a trace of the checker that its filtered logger prints. *)
Fixpoint printed (f : filter_option) (tr : list event) : list (level * string) :=
  match tr with
  | [] => []
  | EvLog l msg :: rest =>
      if allowed f l then (l, msg) :: printed f rest else printed f rest
  | _ :: rest => printed f rest
  end.

(** What the loop of [main] over the channel does. *)
Inductive main_event : Type :=
| MainLog (l : level) (msg : string)
| SlackSend (r : Repository.t).            (* slack.Send(repository) *)

Section Main.

(** [Release.IsNonstable] is declared in another file of the package. *)
Variable IsNonstable : Release.t -> bool.

(** The body of [for repository := range releases]; [delivered] tells
    whether [slack.Send] returns no error, when it is called. *)
Definition handle (c : Config) (delivered : bool) (repository : Repository.t)
  : list main_event :=
  if IgnoreNonstable c && IsNonstable (Repository.Release repository)
  then [MainLog LvlDebug "not notifying about non-stable version"]
  else if delivered
       then [SlackSend repository; MainLog LvlInfo "notification sent"]
       else [SlackSend repository;
             MainLog LvlWarn "failed to send release to messenger"].

(** Whether the body hands the value to Slack. *)
Definition passes (c : Config) (repository : Repository.t) : bool :=
  negb (IgnoreNonstable c && IsNonstable (Repository.Release repository)).

(** The loop over the values received, in order; the [i]th value received
    meets the sink's answer [sink i]. *)
Fixpoint dispatch (c : Config) (sink : nat -> bool) (i : nat)
  (received : list Repository.t) : list main_event :=
  match received with
  | [] => []
  | repository :: rest => handle c (sink i) repository ++ dispatch c sink (S i) rest
  end.

End Main.

(** How far [main] gets: it exits, or it serves the channel for ever. *)
Inductive main_status : Type :=
| Exit (code : Z)
| Serving.

Section MainRun.

Context `{JSONCodec}.
Variable IsNonstable : Release.t -> bool.

Record main_result : Type := mkMainResult {
  status : main_status;
  checker : option (result unit);   (* the goroutine of [Run], when started *)
  main_out : list main_event
}.

(** [main] after the arguments are parsed, on the disk [d], for [n] rounds
    of the checker.  The checker and the loop of [main] share nothing but
    the channel, so what the loop does is what [dispatch] does with the
    values the checker sends (as far as the process lives to receive
    them). *)
Definition main (c : Config) (d : gmap string data) (fault : bool)
  (env : nat -> nat -> answers) (sink : nat -> bool) (n : nat) : main_result :=
  match Repositories c with
  | [] => mkMainResult (Exit 1) None [MainLog LvlError "no repositories wo watch"]
  | _ =>
      let r := Run fault env n (Repositories c)
                 (mkWorld (mkChecker None (ReleasesFile c)) d []) in
      mkMainResult Serving (Some r)
        (MainLog LvlInfo "waiting for new releases"
           :: dispatch IsNonstable c sink 0 (sent (out (final r))))
  end.

End MainRun.

Section Vocabulary.

Context `{JSONCodec}.

(** The world after some more events. *)
Definition after (w : World) (tr : list event) : World :=
  mkWorld (chk w) (dsk w) (out w ++ tr).

(** The events of a save with its error logged. *)
Definition save_events (wo : write_outcome) (m : option relmap) : list event :=
  EvSave m ::
  match MarshalIndent m, wo with
  | Some _, WriteOk => []
  | _, _ => [EvLog LvlError "failed to save releases"]
  end.

(** The disk after a save. *)
Definition save_disk (wo : write_outcome) (c : Checker) (d : gmap string data)
  : gmap string data :=
  match MarshalIndent (releases c) with
  | Some bytes => (WriteFile wo d (filepath c) bytes).1
  | None => d
  end.

(** The world after a save with its error logged. *)
Definition saved (wo : write_outcome) (w : World) : World :=
  mkWorld (chk w) (save_disk wo (chk w) (dsk w))
    (out w ++ save_events wo (releases (chk w))).

(** The world after the map has got the entry, [tr] being the events up
    to there, and the save has run. *)
Definition stored (wo : write_outcome) (w : World) (m : relmap) (tr : list event) : World :=
  saved wo (mkWorld (set_releases (Some m) (chk w)) (dsk w) (out w ++ tr)).

(** The instant a snapshot's release was published at. *)
Definition publishedAt (r : Repository.t) : Z :=
  time.unixNano (Release.PublishedAt (Repository.Release r)).

(** The owner and the name [Run] takes from a watch key. *)
Definition parse (repoName : string) : option (string * string) :=
  match Split repoName slash with
  | owner :: name :: _ => Some (owner, name)
  | _ => None
  end.


(** The body of the loop as a table of its cases: where it ends, and the
    events on the way. *)
Definition body_flat (a : answers) (repoName : string) (w : World) : result unit :=
  match Split repoName slash with
  | [] => Crash (IndexOutOfRange 0 0) w
  | [_] => Crash (IndexOutOfRange 1 1) w
  | owner :: name :: _ =>
      match query_result (resp a) owner name with
      | Panics p => Crash p (after w [EvQuery owner name])
      | Returns (_, Some _) =>
          Done tt (after w [EvQuery owner name;
                            EvLog LvlWarn "failed to query the repository's releases"])
      | Returns (nextRepo, None) =>
          match releases (chk w) with
          | None =>
              Crash NilMapAssignment
                (after w [EvQuery owner name; EvLog LvlInfo "repository checked";
                          EvMapGet repoName])
          | Some m =>
              match m !! repoName with
              | None =>
                  Done tt (stored (wout a) w (<[repoName := nextRepo]> m)
                             [EvQuery owner name; EvLog LvlInfo "repository checked";
                              EvMapGet repoName; EvMapSet repoName nextRepo])
              | Some currRepo =>
                  if time.After (Release.PublishedAt (Repository.Release nextRepo))
                                (Release.PublishedAt (Repository.Release currRepo))
                  then
                    Done tt (stored (wout a) w (<[repoName := nextRepo]> m)
                               [EvQuery owner name; EvLog LvlInfo "repository checked";
                                EvMapGet repoName; EvLog LvlInfo "new release found";
                                EvSend nextRepo; EvMapSet repoName nextRepo])
                  else
                    Done tt (after w [EvQuery owner name;
                                      EvLog LvlInfo "repository checked";
                                      EvMapGet repoName;
                                      EvLog LvlDebug "no new release for repository"])
              end
          end
      end
  end.






End Vocabulary.

(** *** Vocabulary of the properties of whole runs *)

(** The string has the byte in it. *)
Definition has_sep (sep : ascii) (s : string) : bool :=
  existsb (Ascii.eqb sep) (list_ascii_of_string s).

(** The pieces put together again, with the separator between them. *)
Fixpoint Join (pieces : list string) (sep : ascii) : string :=
  match pieces with
  | [] => EmptyString
  | [piece] => piece
  | piece :: rest => String.append piece (String sep (Join rest sep))
  end.

(** The snapshots written under [key], in order. *)
Fixpoint sets (key : string) (tr : list event) : list Repository.t :=
  match tr with
  | [] => []
  | EvMapSet k r :: rest =>
      if decide (k = key) then r :: sets key rest else sets key rest
  | _ :: rest => sets key rest
  end.

(** Each snapshot of the list is published after the one before it, the
    first one after [cur] when there is one. *)
Fixpoint rising (cur : option Repository.t) (l : list Repository.t) : Prop :=
  match l with
  | [] => True
  | r :: rest =>
      match cur with
      | Some c =>
          time.unixNano (Release.PublishedAt (Repository.Release c))
          < time.unixNano (Release.PublishedAt (Repository.Release r))
      | None => True
      end /\ rising (Some r) rest
  end.

(** The last snapshot of the list, or [cur] when the list is empty. *)
Definition last_set (cur : option Repository.t) (l : list Repository.t)
  : option Repository.t :=
  match last l with
  | Some r => Some r
  | None => cur
  end.

(** Every send is followed at once by the write of the snapshot sent and
    by a save of a map that holds it. *)
Fixpoint send_persisted (tr : list event) : Prop :=
  match tr with
  | [] => True
  | EvSend r :: rest =>
      (exists key m rest',
         rest = EvMapSet key r :: EvSave (Some m) :: rest' /\ m !! key = Some r)
      /\ send_persisted rest
  | _ :: rest => send_persisted rest
  end.

(** The values handed to Slack, in order. *)
Fixpoint slacked (tr : list main_event) : list Repository.t :=
  match tr with
  | [] => []
  | SlackSend r :: rest => r :: slacked rest
  | _ :: rest => slacked rest
  end.

Section RunVocabulary.

Context `{JSONCodec}.

(** The entry of a key in the map of the checker. *)
Definition entry (w : World) (key : string) : option Repository.t :=
  releases (chk w) ≫= (.!! key).

(** The state file holds the map of the checker: a fresh checker that
    loads it gets this map, without an error. *)
Definition in_sync (w : World) : Prop :=
  exists w',
    LoadReleases false (mkWorld (mkChecker None (filepath (chk w))) (dsk w) [])
    = Done None w'
    /\ releases (chk w') = releases (chk w).

(** The answers for [repoName] bring nothing new for the map [m]: the key
    splits, and its query fails or returns a snapshot that is not newer
    than the entry of the key. *)
Definition nothing_new (m : relmap) (a : answers) (repoName : string) : Prop :=
  exists owner name rest,
    Split repoName slash = owner :: name :: rest
    /\ ((exists r err, query_result (resp a) owner name = Returns (r, Some err))
        \/ (exists nextRepo currRepo,
              query_result (resp a) owner name = Returns (nextRepo, None)
              /\ m !! repoName = Some currRepo
              /\ publishedAt nextRepo <= publishedAt currRepo)).


(** The checker gets from [w] to [w'] doing [tr]: every send is persisted,
    what is written under a key rises and ends as the entry of the key, and
    no file but the state file is changed. *)
Definition advances (w w' : World) (tr : list event) : Prop :=
  out w' = out w ++ tr
  /\ send_persisted tr
  /\ (forall key,
        rising (entry w key) (sets key tr)
        /\ entry w' key = last_set (entry w key) (sets key tr))
  /\ (forall path, path <> filepath (chk w) -> dsk w' !! path = dsk w !! path)
  /\ filepath (chk w') = filepath (chk w).

End RunVocabulary.

(** ** A codec for the examples *)

(** The year of the time, in its zone, has four digits. *)
Definition year_fits (t : time.Time) : bool :=
  let local := time.unixNano t + time.zoneOffset t * 1000000000 in
  (-62167219200000000000 <=? local) && (253402300800000000000 >? local).

(** The JSON value of an element: an object that holds the fields of a
    [Repository], or a value of another type (a number).  A time is
    written when its year fits, and read back when it does. *)
Inductive plain_value : Type :=
| ElemObject (r : Repository.t)
| ElemNumber (n : Z).

Definition plain_enc (r : Repository.t) : option plain_value :=
  if year_fits (Release.PublishedAt (Repository.Release r))
  then Some (ElemObject r) else None.

Definition plain_dec (j : plain_value) : decoded :=
  match j with
  | ElemObject r =>
      if year_fits (Release.PublishedAt (Repository.Release r)) then Fits r
      else Breaks
  | ElemNumber _ => Misfits Repository.zero
  end.

Definition plain : JSONCodec := Build_JSONCodec plain_value plain_enc plain_dec.

Module Scenario.

Definition widget_url : url.URL :=
  url.mkURL "https" "" None "github.com" "/acme/widget" "" false "" "".

Definition v100_url : url.URL :=
  url.mkURL "https" "" None "github.com" "/acme/widget/releases/tag/v1.0.0" "" false "" "".

Definition v110_url : url.URL :=
  url.mkURL "https" "" None "github.com" "/acme/widget/releases/tag/v1.1.0" "" false "" "".

(* 2024-01-01T00:00:00Z and 2024-02-01T00:00:00Z *)
(* 10000-01-01T00:00:00Z *)
Definition year_10000 : time.Time := time.mkTime 253402300800000000000 0.
Definition jan1 : time.Time := time.mkTime 1704067200000000000 0.
Definition feb1 : time.Time := time.mkTime 1706745600000000000 0.

Definition answer (rel : string) (u : url.URL) (t : time.Time) : QueryResponse :=
  QueryFilled (mkQueryData (VString "R_1") "widget" "widgets" (Some widget_url)
                 [mkNode (VString rel) rel "" (Some u) t]).

Definition snapshot (rel : string) (u : url.URL) (t : time.Time) : Repository.t :=
  Repository.mk "R_1" "widget" "acme" "widgets" widget_url (Release.mk rel rel "" u t).

Definition v100 : Repository.t := snapshot "v1.0.0" v100_url jan1.
Definition v110 : Repository.t := snapshot "v1.1.0" v110_url feb1.

Definition no_releases_data : QueryData :=
  mkQueryData (VString "R_1") "widget" "widgets" (Some widget_url) [].

Definition no_releases : QueryResponse := QueryFilled no_releases_data.




Definition bar_url : url.URL :=
  url.mkURL "https" "" None "github.com" "/foo/bar" "" false "" "".

Definition bar_answer (t : time.Time) : QueryResponse :=
  QueryFilled (mkQueryData (VString "R_2") "bar" "" (Some bar_url)
                 [mkNode (VString "RE_2") "v2" "" (Some bar_url) t]).

Definition bar (t : time.Time) : Repository.t :=
  Repository.mk "R_2" "bar" "foo" "" bar_url (Release.mk "RE_2" "v2" "" bar_url t).

Definition start (m : option relmap) : @World plain :=
  mkWorld (mkChecker m "releases.json") ∅ [].

Definition watched : string := "acme/widget".

(** The state after the first pass of scenario 1, and the world of a
    checker that holds it. *)
Definition seen_v100 : relmap := {[ watched := v100 ]}.
Definition seen_v110 : relmap := {[ watched := v110 ]}.

Definition gives (r : QueryResponse) : answers := mkAnswers r WriteOk.

(** A disk whose state file holds [seen_v100]. *)
Definition v100_json : @jvalue plain := ElemObject v100.

Definition state_file : gmap string (@data plain) :=
  {[ "releases.json" := Text (JObject [(watched, v100_json)]) ]}.


(** The answers of the three rounds of scenarios 1 to 3. *)
Definition three_rounds (k i : nat) : answers :=
  match k with
  | O => gives (answer "v1.0.0" v100_url jan1)
  | _ => gives (answer "v1.1.0" v110_url feb1)
  end.

(** The answers of the pass of scenario 4: no release for the first key. *)
Definition widget_fails (i : nat) : answers :=
  match i with
  | O => gives no_releases
  | _ => gives (bar_answer feb1)
  end.

End Scenario.

Example Split_two : Split "acme/widget" slash = ["acme"; "widget"].
Proof. reflexivity. Qed.

Example Split_none : Split "acme" slash = ["acme"].
Proof. reflexivity. Qed.

Example Split_empty : Split "" slash = [""].
Proof. reflexivity. Qed.

Example Split_three : Split "a//b" slash = ["a"; ""; "b"].
Proof. reflexivity. Qed.

(** ** The body of the loop, case by case *)

Arguments MarshalIndent : simpl never.
Arguments WriteFile : simpl never.
Arguments Unmarshal : simpl never.
Arguments save_events : simpl never.

Ltac run :=
  unfold body, map_set, map_get, query, index, log,
    write_file, read_file, put_releases, get_releases, emit, throw, bind, ret;
  simpl.

Section Body.

Context `{JSONCodec}.
Implicit Types (a : answers) (w : World) (m : relmap).

Lemma save_logged_saved wo w : save_logged wo w = Done tt (saved wo w).
Proof.
  unfold save_logged, SaveReleases, saved, save_disk, save_events. run.
  destruct (MarshalIndent (releases (chk w))) as [bytes|]; simpl.
  - destruct wo; unfold WriteFile; simpl; by rewrite <- ?app_assoc.
  - by rewrite <- app_assoc.
Qed.

Lemma body_malformed a repoName w piece :
  Split repoName slash = [piece] ->
  body a repoName w = Crash (IndexOutOfRange 1 1) w.
Proof. intros Hs. unfold body. rewrite Hs. reflexivity. Qed.

Lemma body_query_panics a repoName w owner name rest p :
  Split repoName slash = owner :: name :: rest ->
  query_result (resp a) owner name = Panics p ->
  body a repoName w = Crash p (after w [EvQuery owner name]).
Proof. intros Hs Hq. unfold body. rewrite Hs. run. rewrite Hq. reflexivity. Qed.

Lemma body_query_fails a repoName w owner name rest r err :
  Split repoName slash = owner :: name :: rest ->
  query_result (resp a) owner name = Returns (r, Some err) ->
  body a repoName w =
    Done tt (after w [EvQuery owner name;
                      EvLog LvlWarn "failed to query the repository's releases"]).
Proof.
  intros Hs Hq. unfold body. rewrite Hs. run. rewrite Hq. simpl.
  unfold after. by rewrite <- app_assoc.
Qed.

Lemma body_nil_map a repoName w owner name rest nextRepo :
  Split repoName slash = owner :: name :: rest ->
  query_result (resp a) owner name = Returns (nextRepo, None) ->
  releases (chk w) = None ->
  body a repoName w =
    Crash NilMapAssignment
      (after w [EvQuery owner name; EvLog LvlInfo "repository checked";
                EvMapGet repoName]).
Proof.
  intros Hs Hq Hm. unfold body. rewrite Hs. run. rewrite Hq. simpl.
  repeat (rewrite Hm; simpl). unfold after. by rewrite <- !app_assoc.
Qed.

Lemma body_first a repoName w owner name rest nextRepo m :
  Split repoName slash = owner :: name :: rest ->
  query_result (resp a) owner name = Returns (nextRepo, None) ->
  releases (chk w) = Some m ->
  m !! repoName = None ->
  body a repoName w =
    Done tt (stored (wout a) w (<[repoName := nextRepo]> m)
               [EvQuery owner name; EvLog LvlInfo "repository checked";
                EvMapGet repoName; EvMapSet repoName nextRepo]).
Proof.
  intros Hs Hq Hm Hk. unfold body. rewrite Hs. run. rewrite Hq. simpl.
  repeat (rewrite Hm; simpl). rewrite Hk. simpl. repeat (rewrite Hm; simpl).
  rewrite save_logged_saved. unfold stored. by rewrite <- !app_assoc.
Qed.

Lemma body_newer a repoName w owner name rest nextRepo m currRepo :
  Split repoName slash = owner :: name :: rest ->
  query_result (resp a) owner name = Returns (nextRepo, None) ->
  releases (chk w) = Some m ->
  m !! repoName = Some currRepo ->
  time.After (Release.PublishedAt (Repository.Release nextRepo))
             (Release.PublishedAt (Repository.Release currRepo)) = true ->
  body a repoName w =
    Done tt (stored (wout a) w (<[repoName := nextRepo]> m)
               [EvQuery owner name; EvLog LvlInfo "repository checked";
                EvMapGet repoName; EvLog LvlInfo "new release found";
                EvSend nextRepo; EvMapSet repoName nextRepo]).
Proof.
  intros Hs Hq Hm Hk Ha. unfold body. rewrite Hs. run. rewrite Hq. simpl.
  repeat (rewrite Hm; simpl). rewrite Hk. simpl. rewrite Ha. simpl.
  repeat (rewrite Hm; simpl). rewrite save_logged_saved. unfold stored.
  by rewrite <- !app_assoc.
Qed.

Lemma body_not_newer a repoName w owner name rest nextRepo m currRepo :
  Split repoName slash = owner :: name :: rest ->
  query_result (resp a) owner name = Returns (nextRepo, None) ->
  releases (chk w) = Some m ->
  m !! repoName = Some currRepo ->
  time.After (Release.PublishedAt (Repository.Release nextRepo))
             (Release.PublishedAt (Repository.Release currRepo)) = false ->
  body a repoName w =
    Done tt (after w [EvQuery owner name; EvLog LvlInfo "repository checked";
                      EvMapGet repoName;
                      EvLog LvlDebug "no new release for repository"]).
Proof.
  intros Hs Hq Hm Hk Ha. unfold body. rewrite Hs. run. rewrite Hq. simpl.
  repeat (rewrite Hm; simpl). rewrite Hk. simpl. rewrite Ha. simpl.
  unfold after. by rewrite <- !app_assoc.
Qed.

(** *** Traces *)

Lemma sent_app tr1 tr2 : sent (tr1 ++ tr2) = sent tr1 ++ sent tr2.
Proof. induction tr1 as [|[] tr1 IH]; simpl; by rewrite ?IH. Qed.

Lemma queried_app tr1 tr2 : queried (tr1 ++ tr2) = queried tr1 ++ queried tr2.
Proof. induction tr1 as [|[] tr1 IH]; simpl; by rewrite ?IH. Qed.

Lemma touched_app tr1 tr2 : touched (tr1 ++ tr2) = touched tr1 ++ touched tr2.
Proof. induction tr1 as [|[] tr1 IH]; simpl; by rewrite ?IH. Qed.

Lemma saves_app tr1 tr2 : saves (tr1 ++ tr2) = (saves tr1 + saves tr2)%nat.
Proof. induction tr1 as [|[] tr1 IH]; simpl; by rewrite ?IH. Qed.

Lemma sent_save_events wo mo : sent (save_events wo mo) = [].
Proof. unfold save_events. destruct (MarshalIndent mo), wo; reflexivity. Qed.

Lemma queried_save_events wo mo : queried (save_events wo mo) = [].
Proof. unfold save_events. destruct (MarshalIndent mo), wo; reflexivity. Qed.

Lemma touched_save_events wo mo : touched (save_events wo mo) = [].
Proof. unfold save_events. destruct (MarshalIndent mo), wo; reflexivity. Qed.

Lemma saves_save_events wo mo : saves (save_events wo mo) = 1%nat.
Proof. unfold save_events. destruct (MarshalIndent mo), wo; reflexivity. Qed.

Lemma write_through_app tr1 tr2 :
  write_through tr1 -> write_through tr2 -> write_through (tr1 ++ tr2).
Proof.
  induction tr1 as [|e tr1 IH]; [done|].
  destruct e; simpl; try (by auto).
  intros [(m & rest' & -> & Hm) Hr] H2. split; [|by auto].
  exists m, (rest' ++ tr2). by split.
Qed.

Lemma write_through_save_events wo mo : write_through (save_events wo mo).
Proof. unfold save_events. by destruct (MarshalIndent mo), wo. Qed.

Lemma After_publishedAt nextRepo currRepo :
  time.After (Release.PublishedAt (Repository.Release nextRepo))
             (Release.PublishedAt (Repository.Release currRepo))
  = bool_decide (publishedAt currRepo < publishedAt nextRepo).
Proof.
  unfold time.After, publishedAt. case_bool_decide as Hd.
  - by apply Z.ltb_lt.
  - by apply Z.ltb_ge, Z.nlt_ge.
Qed.

(** C1. Strict monotonicity: a key that is in the state with a release
    published at [T], and a query that succeeds with a snapshot published
    at [P].  When [P <= T] the step sends nothing, calls no save, and leaves
    the checker (so the entry) and the disk (so the file) as they were.
    When [T < P] the step sends exactly the new snapshot and the entry of
    the key becomes the new snapshot. *)
Theorem strict_monotonicity_law a repoName owner name rest m currRepo nextRepo w :
  Split repoName slash = owner :: name :: rest ->
  query_result (resp a) owner name = Returns (nextRepo, None) ->
  releases (chk w) = Some m ->
  m !! repoName = Some currRepo ->
  (publishedAt nextRepo <= publishedAt currRepo ->
   exists w', body a repoName w = Done tt w'
     /\ sent (out w') = sent (out w)
     /\ saves (out w') = saves (out w)
     /\ chk w' = chk w
     /\ dsk w' = dsk w)
  /\
  (publishedAt currRepo < publishedAt nextRepo ->
   exists w', body a repoName w = Done tt w'
     /\ sent (out w') = sent (out w) ++ [nextRepo]
     /\ releases (chk w') = Some (<[repoName := nextRepo]> m)
     /\ (releases (chk w') ≫= (.!! repoName)) = Some nextRepo).
Proof.
  intros Hs Hq Hm Hk. split; intros Hcmp.
  - eexists. split.
    + eapply body_not_newer; eauto.
      rewrite After_publishedAt. by apply bool_decide_eq_false, Z.le_ngt.
    + unfold after; simpl. rewrite sent_app, saves_app. simpl.
      rewrite app_nil_r, Nat.add_0_r. done.
  - eexists. split.
    + eapply body_newer; eauto.
      rewrite After_publishedAt. by apply bool_decide_eq_true.
    + unfold stored, saved; simpl.
      rewrite !sent_app, sent_save_events. simpl.
      rewrite app_nil_r, lookup_insert_eq. done.
Qed.


(** The body and its table agree. *)
Lemma body_flat_eq a repoName w : body a repoName w = body_flat a repoName w.
Proof.
  unfold body_flat.
  destruct (Split repoName slash) as [|owner [|name rest]] eqn:Hs.
  - unfold body. by rewrite Hs.
  - by eapply body_malformed.
  - destruct (query_result (resp a) owner name) as [[nextRepo [err|]]|p] eqn:Hq.
    + by eapply body_query_fails.
    + destruct (releases (chk w)) as [m|] eqn:Hm; [|by eapply body_nil_map].
      destruct (m !! repoName) as [currRepo|] eqn:Hk; [|by eapply body_first].
      destruct (time.After _ _) eqn:Ha.
      * by eapply body_newer.
      * by eapply body_not_newer.
    + by eapply body_query_panics.
Qed.

Lemma Split_cons s sep : exists piece rest, Split s sep = piece :: rest.
Proof.
  induction s as [|c s (piece & rest & IH)]; simpl; [by eauto|].
  destruct (Ascii.eqb c sep); [by eauto|]. rewrite IH. eauto.
Qed.

Ltac stored_case :=
  match goal with
  | |- context [stored ?wo ?w ?m ?tr0] =>
      exists (tr0 ++ save_events wo (Some m));
      unfold stored, saved;
      cbn [final out chk dsk releases filepath set_releases];
      split; [by rewrite <- ?app_assoc|];
      split; [|split; [|split; [|split]]];
      [ simpl; split; [|apply write_through_save_events];
        unfold save_events; eexists _, _; split; [reflexivity|];
        apply lookup_insert_eq
      | intros key; rewrite touched_app, touched_save_events; simpl;
        rewrite !elem_of_cons, elem_of_nil; tauto
      | intros key Hne; simpl; by apply lookup_insert_ne
      | done
      | right; rewrite elem_of_app; right; unfold save_events;
        apply list_elem_of_here ]
  end.

(** A well-formed key gives its two parts, and the step gets to the
    query. *)
Lemma well_formed_parse repoName :
  well_formed repoName ->
  exists owner name,
    parse repoName = Some (owner, name) /\ owner <> "" /\ name <> ""
    /\ forall a w, queried (out (final (body a repoName w)))
                   = queried (out w) ++ [(owner, name)].
Proof.
  intros (owner & name & Hs & Ho & Hn). exists owner, name.
  unfold parse. rewrite Hs. repeat split; try done.
  intros a w. rewrite body_flat_eq. unfold body_flat. rewrite Hs.
  destruct (query_result (resp a) owner name) as [[nextRepo [err|]]|p];
    [ | destruct (releases (chk w)) as [m|];
        [ destruct (m !! repoName) as [currRepo|];
          [destruct (time.After _ _)|] | ] | ];
    unfold stored, saved; cbn [final out chk after];
    rewrite ?queried_app, ?queried_save_events; simpl;
    by rewrite ?app_nil_r.
Qed.

(** What one step adds to the trace and does to the map. *)
Lemma body_trace a repoName w :
  exists tr,
    out (final (body a repoName w)) = out w ++ tr
    /\ write_through tr
    /\ (forall key, key ∈ touched tr -> key = repoName)
    /\ (forall key, key <> repoName ->
          releases (chk (final (body a repoName w))) ≫= (.!! key)
          = releases (chk w) ≫= (.!! key))
    /\ filepath (chk (final (body a repoName w))) = filepath (chk w)
    /\ (releases (chk (final (body a repoName w))) = releases (chk w)
        \/ EvSave (releases (chk (final (body a repoName w)))) ∈ tr).
Proof.
  rewrite body_flat_eq. unfold body_flat.
  destruct (Split repoName slash) as [|owner [|name rest]] eqn:Hs.
  - exists []. simpl. rewrite app_nil_r.
    repeat split; auto. intros key Hin. by apply elem_of_nil in Hin.
  - exists []. simpl. rewrite app_nil_r.
    repeat split; auto. intros key Hin. by apply elem_of_nil in Hin.
  - destruct (query_result (resp a) owner name) as [[nextRepo [err|]]|p] eqn:Hq.
    + eexists. simpl. repeat split; auto.
      intros key Hin. by apply elem_of_nil in Hin.
    + destruct (releases (chk w)) as [m|] eqn:Hm.
      * destruct (m !! repoName) as [currRepo|] eqn:Hk;
          [destruct (time.After _ _) eqn:Ha|].
        -- stored_case.
        -- eexists. simpl. split; [reflexivity|]. rewrite Hm.
           repeat split; auto. simpl. intros key.
           rewrite !elem_of_cons, elem_of_nil. tauto.
        -- stored_case.
      * eexists. simpl. split; [reflexivity|]. rewrite Hm.
        repeat split; auto. simpl. intros key.
        rewrite !elem_of_cons, elem_of_nil. tauto.
    + eexists. simpl. repeat split; auto.
      intros key Hin. by apply elem_of_nil in Hin.
Qed.



(** C7. A save that fails.  [SaveReleases] never touches the checker,
    whatever comes of it, and it always returns.  So when the step has put
    a snapshot into the map and the save then fails (the state cannot be
    marshalled, or the file cannot be written), the step still returns,
    the map keeps the new snapshot, and the error is logged; when the file
    was not touched the disk is as before, behind the map. *)
Theorem save_failure_keeps_memory a repoName owner name rest m nextRepo w wo w0 :
  (exists err w0', SaveReleases wo w0 = Done err w0' /\ chk w0' = chk w0)
  /\
  (Split repoName slash = owner :: name :: rest ->
   query_result (resp a) owner name = Returns (nextRepo, None) ->
   releases (chk w) = Some m ->
   (forall currRepo, m !! repoName = Some currRepo ->
                     publishedAt currRepo < publishedAt nextRepo) ->
   MarshalIndent (Some (<[repoName := nextRepo]> m)) = None \/ wout a <> WriteOk ->
   exists w' tr, body a repoName w = Done tt w'
     /\ releases (chk w') = Some (<[repoName := nextRepo]> m)
     /\ out w' = out w ++ tr ++ [EvSave (Some (<[repoName := nextRepo]> m));
                                 EvLog LvlError "failed to save releases"]
     /\ (MarshalIndent (Some (<[repoName := nextRepo]> m)) = None
         \/ wout a = WriteFailsUntouched -> dsk w' = dsk w)).
Proof.
  split.
  - unfold SaveReleases. run.
    destruct (MarshalIndent (releases (chk w0))); simpl; [|eauto].
    destruct (WriteFile wo (dsk w0) (filepath (chk w0)) d) as [d' [|]]; simpl; eauto.
  - intros Hs Hq Hm Hnew Hfail.
    assert (Hev : save_events (wout a) (Some (<[repoName := nextRepo]> m))
                  = [EvSave (Some (<[repoName := nextRepo]> m));
                     EvLog LvlError "failed to save releases"]).
    { unfold save_events. destruct Hfail as [-> | Hw]; [done|].
      destruct (MarshalIndent _); [|done]. by destruct (wout a). }
    assert (Hdisk : MarshalIndent (Some (<[repoName := nextRepo]> m)) = None
                    \/ wout a = WriteFailsUntouched ->
                    save_disk (wout a)
                      (set_releases (Some (<[repoName := nextRepo]> m)) (chk w)) (dsk w)
                    = dsk w).
    { unfold save_disk; simpl. intros [-> | ->]; [done|].
      by destruct (MarshalIndent _). }
    destruct (m !! repoName) as [currRepo|] eqn:Hk.
    + eexists.
      exists [EvQuery owner name; EvLog LvlInfo "repository checked";
              EvMapGet repoName; EvLog LvlInfo "new release found";
              EvSend nextRepo; EvMapSet repoName nextRepo].
      split.
      * eapply body_newer; eauto. rewrite After_publishedAt.
        apply bool_decide_eq_true. by apply Hnew.
      * unfold stored, saved; simpl. rewrite Hev, <- app_assoc. auto.
    + eexists.
      exists [EvQuery owner name; EvLog LvlInfo "repository checked";
              EvMapGet repoName; EvMapSet repoName nextRepo].
      split; [by eapply body_first|].
      unfold stored, saved; simpl. rewrite Hev, <- app_assoc. auto.
Qed.

(** *** The whole pass and the rounds *)

Lemma cycle_from_cons env i repoName rest w :
  cycle_from env i (repoName :: rest) w =
    match body (env i) repoName w with
    | Done _ w' => cycle_from env (S i) rest w'
    | Crash p w' => Crash p w'
    end.
Proof. reflexivity. Qed.

Lemma cycle_from_trace env repositories : forall i w,
  exists tr,
    out (final (cycle_from env i repositories w)) = out w ++ tr
    /\ write_through tr
    /\ (forall key, key ∈ touched tr -> key ∈ repositories)
    /\ (forall key, key ∉ repositories ->
          releases (chk (final (cycle_from env i repositories w))) ≫= (.!! key)
          = releases (chk w) ≫= (.!! key)).
Proof.
  induction repositories as [|repoName rest IH]; intros i w.
  - exists []. simpl. rewrite app_nil_r. repeat split; auto.
  - rewrite cycle_from_cons.
    destruct (body_trace (env i) repoName w)
      as (tr1 & Hout & Hwt & Htouch & Hframe & _ & _).
    destruct (body (env i) repoName w) as [[] w1|p w1]; simpl in *.
    + destruct (IH (S i) w1) as (tr2 & Hout2 & Hwt2 & Htouch2 & Hframe2).
      exists (tr1 ++ tr2). rewrite Hout2, Hout, <- app_assoc.
      split; [done|]. split; [by apply write_through_app|]. split.
      * intros key. rewrite touched_app, elem_of_app, elem_of_cons.
        intros [Hin|Hin]; [left; by apply Htouch | right; by apply Htouch2].
      * intros key Hnot. rewrite not_elem_of_cons in Hnot.
        destruct Hnot as [Hne Hnot]. rewrite Hframe2, Hframe; done.
    + exists tr1. split; [done|]. split; [done|]. split.
      * intros key Hin. rewrite elem_of_cons. left. by apply Htouch.
      * intros key Hnot. rewrite not_elem_of_cons in Hnot.
        destruct Hnot as [Hne Hnot]. by apply Hframe.
Qed.

Lemma rounds_trace env repositories n : forall k w,
  exists tr,
    out (final (rounds env k n repositories w)) = out w ++ tr
    /\ write_through tr.
Proof.
  induction n as [|n IH]; intros k w.
  - exists []. simpl. by rewrite app_nil_r.
  - simpl. unfold bind at 1. unfold cycle.
    destruct (cycle_from_trace (env k) repositories 0%nat w)
      as (tr1 & Hout & Hwt & _).
    destruct (cycle_from (env k) 0 repositories w) as [[] w1|p w1]; simpl in *.
    + unfold bind, emit. simpl.
      destruct (IH (S k) (mkWorld (chk w1) (dsk w1) (out w1 ++ [EvSleep])))
        as (tr2 & Hout2 & Hwt2).
      exists (tr1 ++ [EvSleep] ++ tr2). rewrite Hout2. simpl. rewrite Hout.
      split; [by rewrite <- !app_assoc|].
      apply write_through_app; [done|]. by simpl.
    + by exists tr1.
Qed.

Lemma LoadReleases_eq fault w :
  LoadReleases fault w =
    match ReadFile fault (dsk w) (filepath (chk w)) with
    | ReadError true =>
        Done None (mkWorld (set_releases (Some ∅) (chk w)) (dsk w) (out w))
    | ReadError false => Done (Some ErrReadFile) w
    | ReadBytes bytes =>
        Done (if (Unmarshal bytes (releases (chk w))).2 then None else Some ErrUnmarshal)
          (mkWorld (set_releases (Unmarshal bytes (releases (chk w))).1 (chk w))
             (dsk w) (out w))
    end.
Proof.
  unfold LoadReleases. run.
  destruct (ReadFile fault (dsk w) (filepath (chk w))) as [bytes|[]]; simpl; try done.
  by destruct (Unmarshal bytes (releases (chk w))) as [m' []].
Qed.

Lemma Run_start_eq fault w :
  Run_start fault w =
    match releases (chk w) with
    | Some _ => Done tt w
    | None =>
        match LoadReleases fault w with
        | Done (Some _) w' =>
            Done tt (mkWorld (set_releases (Some ∅) (chk w')) (dsk w')
                       (out w' ++ [EvLog LvlError "failed to load releases"]))
        | Done None w' => Done tt w'
        | Crash p w' => Crash p w'
        end
    end.
Proof.
  unfold Run_start. run. destruct (releases (chk w)); [done|].
  unfold bind. by destruct (LoadReleases fault w) as [[e|] w'|p w'].
Qed.

Lemma Run_start_done fault w :
  exists w' tr, Run_start fault w = Done tt w'
    /\ out w' = out w ++ tr
    /\ touched tr = []
    /\ write_through tr.
Proof.
  rewrite Run_start_eq, LoadReleases_eq.
  destruct (releases (chk w)) as [m|]; simpl.
  { exists w, []. by rewrite app_nil_r. }
  destruct (ReadFile fault (dsk w) (filepath (chk w))) as [bytes|[]]; simpl.
  - destruct (Unmarshal bytes None) as [m' [|]]; simpl.
    + eexists _, []. simpl. by rewrite app_nil_r.
    + by eexists _, [_].
  - eexists _, []. simpl. by rewrite app_nil_r.
  - by eexists _, [_].
Qed.

(** C8. Write-through: in the trace of one step, of one pass, and of any
    number of rounds of [Run], every write to the map is followed at once
    by a call of [SaveReleases] on a map that holds what was written, be
    the trace cut short by a panic or not; and a step that ends with
    another map than it started with has handed that very map to
    [SaveReleases]. *)
Theorem write_through_persistence :
  (forall a repoName w,
     exists tr, out (final (body a repoName w)) = out w ++ tr
       /\ write_through tr
       /\ (releases (chk (final (body a repoName w))) = releases (chk w)
           \/ EvSave (releases (chk (final (body a repoName w)))) ∈ tr))
  /\
  (forall env repositories w,
     exists tr, out (final (cycle env repositories w)) = out w ++ tr
       /\ write_through tr)
  /\
  (forall fault env n repositories w,
     exists tr, out (final (Run fault env n repositories w)) = out w ++ tr
       /\ write_through tr).
Proof.
  split; [|split].
  - intros a repoName w.
    destruct (body_trace a repoName w) as (tr & Hout & Hwt & _ & _ & _ & Hsave).
    by exists tr.
  - intros env repositories w.
    destruct (cycle_from_trace env repositories 0%nat w) as (tr & Hout & Hwt & _).
    by exists tr.
  - intros fault env n repositories w. unfold Run, bind.
    destruct (Run_start_done fault w) as (w1 & tr1 & -> & Hout1 & _ & Hwt1).
    destruct (rounds_trace env repositories n 0%nat w1) as (tr2 & Hout2 & Hwt2).
    exists (tr1 ++ tr2). rewrite Hout2, Hout1, <- app_assoc.
    split; [done|]. by apply write_through_app.
Qed.


(** *** A pass goes through the whole list *)

Lemma query_result_returns r owner name :
  urls_present r = true -> exists x, query_result r owner name = Returns x.
Proof.
  destruct r as [msg|d]; simpl; [by eauto|].
  destruct (as_string (q_ID d)); [|by eauto].
  destruct (q_Edges d) as [|nd rest]; [by eauto|].
  destruct (as_string (node_ID nd)); [|by eauto].
  rewrite andb_true_iff, !bool_decide_eq_true.
  intros [[ru ->] [nu ->]]. eauto.
Qed.

Lemma body_done a repoName owner name w :
  parse repoName = Some (owner, name) ->
  is_Some (releases (chk w)) ->
  urls_present (resp a) = true ->
  exists w', body a repoName w = Done tt w'
    /\ is_Some (releases (chk w'))
    /\ queried (out w') = queried (out w) ++ [(owner, name)].
Proof.
  unfold parse. intros Hp [m Hm] Hu. rewrite body_flat_eq. unfold body_flat.
  destruct (Split repoName slash) as [|owner' [|name' rest]]; try done.
  injection Hp as -> ->.
  destruct (query_result_returns _ owner name Hu) as [[nextRepo [err|]] ->].
  - eexists. split; [reflexivity|]. simpl. rewrite queried_app, Hm. eauto.
  - rewrite Hm.
    destruct (m !! repoName) as [currRepo|]; [destruct (time.After _ _)|];
      eexists; (split; [reflexivity|]); unfold stored, saved; simpl;
      rewrite ?Hm, !queried_app, ?queried_save_events; simpl;
      rewrite ?app_nil_r; eauto.
Qed.

Lemma cycle_from_done env repositories : forall i w,
  is_Some (releases (chk w)) ->
  Forall (fun repoName => is_Some (parse repoName)) repositories ->
  (forall j, urls_present (resp (env j)) = true) ->
  exists w', cycle_from env i repositories w = Done tt w'
    /\ is_Some (releases (chk w'))
    /\ queried (out w') = queried (out w) ++ omap parse repositories.
Proof.
  induction repositories as [|repoName rest IH]; intros i w Hm Hall Hu.
  - exists w. simpl. by rewrite app_nil_r.
  - inversion Hall as [|? ? [[owner name] Hp] Hall']; subst.
    destruct (body_done (env i) repoName owner name w Hp Hm (Hu i))
      as (w1 & Hb & Hm1 & Hq1).
    destruct (IH (S i) w1 Hm1 Hall' Hu) as (w2 & Hc & Hm2 & Hq2).
    exists w2. rewrite cycle_from_cons, Hb. split; [done|]. split; [done|].
    simpl. rewrite Hp, Hq2, Hq1, <- app_assoc. done.
Qed.

(** C4. Isolation.  A key whose query fails costs the pass nothing but
    the query and a warning: the rest of the list is processed as it would
    have been, from the same checker and the same disk.  And in a pass over
    keys that all have an owner and a name, on an allocated map, every key
    of the list is queried, in order, whichever of the queries fail. *)
Theorem failure_isolation env :
  (forall i repoName rest w owner name pieces r err,
     Split repoName slash = owner :: name :: pieces ->
     query_result (resp (env i)) owner name = Returns (r, Some err) ->
     cycle_from env i (repoName :: rest) w
     = cycle_from env (S i) rest
         (mkWorld (chk w) (dsk w)
            (out w ++ [EvQuery owner name;
                       EvLog LvlWarn "failed to query the repository's releases"])))
  /\
  (forall repositories w,
     is_Some (releases (chk w)) ->
     Forall (fun repoName => is_Some (parse repoName)) repositories ->
     (forall j, urls_present (resp (env j)) = true) ->
     exists w', cycle env repositories w = Done tt w'
       /\ queried (out w') = queried (out w) ++ omap parse repositories).
Proof.
  split.
  - intros i repoName rest w owner name pieces r err Hs Hq.
    rewrite cycle_from_cons. by erewrite body_query_fails.
  - intros repositories w Hm Hall Hu.
    destruct (cycle_from_done env repositories 0%nat w Hm Hall Hu)
      as (w' & Hc & _ & Hq).
    by exists w'.
Qed.

(** C3, at the key [acme]: a watch key without a slash makes the step
    panic, the index 1 being out of the range of the one piece, before any
    query; so [Run] panics in its first round.  And a key with an empty
    name, [acme/], is taken as it is and queried. *)
Theorem malformed_key_panics a w fault env n :
  body a "acme" w = Crash (IndexOutOfRange 1 1) w
  /\ (exists w', Run fault env (S n) ["acme"] w = Crash (IndexOutOfRange 1 1) w')
  /\ parse "acme/" = Some ("acme", "")
  /\ queried (out (final (body a "acme/" w))) = queried (out w) ++ [("acme", "")].
Proof.
  assert (Hb : forall a' w', body a' "acme" w' = Crash (IndexOutOfRange 1 1) w')
    by (intros; by eapply body_malformed).
  split; [done|]. split; [|split; [done|]].
  - unfold Run, bind.
    destruct (Run_start_done fault w) as (w1 & tr & -> & _).
    exists w1. reflexivity.
  - rewrite body_flat_eq. unfold body_flat.
    change (Split "acme/" slash) with ["acme"; ""]. cbv beta iota.
    destruct (query_result (resp a) "acme" "") as [[nextRepo [err|]]|p];
      [ | destruct (releases (chk w)) as [m|];
          [ destruct (m !! "acme/") as [currRepo|];
            [destruct (time.After _ _)|] | ] | ];
      unfold stored, saved; cbn [final out chk after];
      rewrite ?queried_app, ?queried_save_events; simpl;
      by rewrite ?app_nil_r.
Qed.

(** *** The state file, written and read back *)










End Body.

(** ** The properties at work on the scenarios *)

(** An equation between closed terms, checked by evaluating both sides. *)
Ltac by_computation :=
  lazymatch goal with
  | |- ?lhs = ?rhs => exact (@eq_refl _ rhs <: lhs = rhs)
  end.

Section Witnesses.

Import Scenario.
Existing Instance plain.

(** Scenario 1: no state file; the first round stores v1.0.0 and sends
    nothing. *)
Example scenario_1 :
  let r := Run false three_rounds 1 [watched] (start None) in
  returned r = true
  /\ sent (out (final r)) = []
  /\ releases (chk (final r)) = Some seen_v100
  /\ dsk (final r) !! "releases.json" = @MarshalIndent plain (Some seen_v100).
Proof. cbv zeta. repeat apply conj; by_computation. Qed.

(** Scenario 2: the second round finds v1.1.0 and sends it, once. *)
Example scenario_2 :
  let r := Run false three_rounds 2 [watched] (start None) in
  returned r = true
  /\ sent (out (final r)) = [v110]
  /\ releases (chk (final r)) = Some seen_v110
  /\ dsk (final r) !! "releases.json" = @MarshalIndent plain (Some seen_v110).
Proof. cbv zeta. repeat apply conj; by_computation. Qed.

(** Scenario 3: the third round finds v1.1.0 again and sends nothing
    more. *)
Example scenario_3 :
  let r := Run false three_rounds 3 [watched] (start None) in
  returned r = true
  /\ sent (out (final r)) = [v110]
  /\ saves (out (final r)) = 2%nat
  /\ releases (chk (final r)) = Some seen_v110.
Proof. cbv zeta. repeat apply conj; by_computation. Qed.

(** Scenario 4: acme/widget has no release; foo/bar, after it in the list,
    is queried in the same pass and its new release is sent. *)
Example scenario_4 :
  let r := cycle widget_fails [watched; "foo/bar"]
             (start (Some {[ "foo/bar" := bar jan1 ]})) in
  returned r = true
  /\ queried (out (final r)) = [("acme", "widget"); ("foo", "bar")]
  /\ sent (out (final r)) = [bar feb1]
  /\ releases (chk (final r)) = Some {[ "foo/bar" := bar feb1 ]}.
Proof. cbv zeta. repeat apply conj; by_computation. Qed.

(** A state file that holds [null] loads without an error and leaves the
    map nil: the first snapshot to store panics. *)
Example null_state_file :
  let r := Run false three_rounds 1 [watched]
             (mkWorld (mkChecker None "releases.json")
                {[ "releases.json" := Text JNull ]} []) in
  returned r = false /\ releases (chk (final r)) = None.
Proof. cbv zeta. repeat apply conj; by_computation. Qed.

(** Loading into a map that is there keeps its other entries. *)
Example Unmarshal_keeps_entries :
  Unmarshal (Text (JObject [(watched, v100_json)])) (Some {[ "foo/bar" := bar jan1 ]})
  = (Some (<[watched := v100]> {[ "foo/bar" := bar jan1 ]}), true).
Proof. by_computation. Qed.

(** Of two members with one key the later one is kept. *)
Example Unmarshal_later_member :
  Unmarshal (Text (JObject [(watched, ElemObject v100); (watched, ElemObject v110)])) None
  = (Some seen_v110, true).
Proof. by_computation. Qed.

(** A member that is a number is an error, and the members after it are
    still stored; a member whose time cannot be read ends the decoding. *)
Example Unmarshal_misfit :
  Unmarshal (Text (JObject [("foo/bar", ElemNumber 1); (watched, ElemObject v100)])) None
  = (Some (<[watched := v100]> {[ "foo/bar" := Repository.zero ]}), false).
Proof. by_computation. Qed.

Example Unmarshal_break :
  Unmarshal (Text (JObject [("foo/bar", ElemObject (bar year_10000));
                            (watched, ElemObject v100)])) None
  = (Some ∅, false).
Proof. by_computation. Qed.

(** A time of the year 10000 cannot be marshalled, so the state cannot be
    saved. *)
Example MarshalIndent_year_10000 :
  @MarshalIndent plain (Some {[ "foo/bar" := bar year_10000 ]}) = None.
Proof. by_computation. Qed.

(** C1 on the scenarios: v1.1.0 after v1.0.0 is sent and stored; v1.0.0
    after v1.0.0 is not. *)
Lemma strict_monotonicity_law_witness :
  (exists w', body (gives (answer "v1.1.0" v110_url feb1)) watched (start (Some seen_v100))
              = Done tt w'
     /\ sent (out w') = sent (out (start (Some seen_v100))) ++ [v110]
     /\ releases (chk w') = Some (<[watched := v110]> seen_v100)
     /\ (releases (chk w') ≫= (.!! watched)) = Some v110)
  /\
  (exists w', body (gives (answer "v1.0.0" v100_url jan1)) watched (start (Some seen_v100))
              = Done tt w'
     /\ sent (out w') = sent (out (start (Some seen_v100)))
     /\ saves (out w') = saves (out (start (Some seen_v100)))
     /\ chk w' = chk (start (Some seen_v100))
     /\ dsk w' = dsk (start (Some seen_v100))).
Proof.
  split.
  - apply (strict_monotonicity_law (gives (answer "v1.1.0" v110_url feb1)) watched
             "acme" "widget" [] seen_v100 v100 v110 (start (Some seen_v100)));
      reflexivity.
  - apply (strict_monotonicity_law (gives (answer "v1.0.0" v100_url jan1)) watched
             "acme" "widget" [] seen_v100 v100 v100 (start (Some seen_v100)));
      reflexivity.
Defined.


(** C4 on scenario 4. *)
Lemma failure_isolation_witness :
  cycle_from widget_fails 0 [watched; "foo/bar"] (start (Some {[ "foo/bar" := bar jan1 ]}))
  = cycle_from widget_fails 1 ["foo/bar"]
      (mkWorld (mkChecker (Some {[ "foo/bar" := bar jan1 ]}) "releases.json") ∅
         ([] ++ [EvQuery "acme" "widget";
                 EvLog LvlWarn "failed to query the repository's releases"]))
  /\
  (exists w', cycle widget_fails [watched; "foo/bar"]
                (start (Some {[ "foo/bar" := bar jan1 ]})) = Done tt w'
     /\ queried (out w')
        = queried (out (start (Some {[ "foo/bar" := bar jan1 ]})))
          ++ omap parse [watched; "foo/bar"]).
Proof.
  destruct (failure_isolation widget_fails) as [Hfail Hall]. split.
  - apply (Hfail 0%nat watched ["foo/bar"] (start (Some {[ "foo/bar" := bar jan1 ]}))
             "acme" "widget" [] Repository.zero (ErrNoReleases "acme" "widget"));
      reflexivity.
  - apply Hall.
    + by eexists.
    + repeat constructor; by eexists.
    + intros [|j]; reflexivity.
Defined.





(** C7: the file cannot be written when v1.1.0 is found. *)
Lemma save_failure_keeps_memory_witness :
  exists w' tr,
    body (mkAnswers (answer "v1.1.0" v110_url feb1) WriteFailsUntouched) watched
      (start (Some seen_v100)) = Done tt w'
    /\ releases (chk w') = Some (<[watched := v110]> seen_v100)
    /\ out w' = out (start (Some seen_v100)) ++ tr
                ++ [EvSave (Some (<[watched := v110]> seen_v100));
                    EvLog LvlError "failed to save releases"]
    /\ (MarshalIndent (Some (<[watched := v110]> seen_v100)) = None
        \/ wout (mkAnswers (answer "v1.1.0" v110_url feb1) WriteFailsUntouched)
           = WriteFailsUntouched ->
        dsk w' = dsk (start (Some seen_v100))).
Proof.
  apply (proj2 (save_failure_keeps_memory
                  (mkAnswers (answer "v1.1.0" v110_url feb1) WriteFailsUntouched)
                  watched "acme" "widget" [] seen_v100 v110
                  (start (Some seen_v100)) WriteOk (start None)));
    try reflexivity.
  - intros currRepo Hl. unfold seen_v100 in Hl.
    apply lookup_singleton_Some in Hl as [_ <-]. reflexivity.
  - by right.
Defined.



End Witnesses.

(** ** More of the program *)

(** *** Splitting a watch key *)

Lemma Split_single s sep : has_sep sep s = false -> Split s sep = [s].
Proof.
  unfold has_sep. induction s as [|c s IH]; simpl; [done|].
  rewrite orb_false_iff. intros [Hc Hs]. rewrite Ascii.eqb_sym, Hc.
  by rewrite IH.
Qed.

Lemma Split_several s sep :
  has_sep sep s = true -> exists p q rest, Split s sep = p :: q :: rest.
Proof.
  unfold has_sep. induction s as [|c s IH]; simpl; [done|].
  rewrite Ascii.eqb_sym. destruct (Ascii.eqb c sep) eqn:Hc; simpl.
  - intros _. destruct (Split_cons s sep) as (p & rest & ->). eauto.
  - intros Hs. destruct (IH Hs) as (p & q & rest & ->). eauto.
Qed.

Lemma Split_sep_free s sep :
  Forall (fun piece => has_sep sep piece = false) (Split s sep).
Proof.
  induction s as [|c s IH]; simpl; [by repeat constructor|].
  destruct (Ascii.eqb c sep) eqn:Hc; [by constructor|].
  assert (Hone : forall p, has_sep sep p = false -> has_sep sep (String c p) = false).
  { intros p Hp. unfold has_sep in *. simpl. by rewrite Ascii.eqb_sym, Hc. }
  destruct (Split s sep) as [|p ps].
  - constructor; [by apply Hone|done].
  - inversion IH; subst. constructor; [by apply Hone|done].
Qed.

Lemma Join_cons piece q rest sep :
  Join (piece :: q :: rest) sep
  = String.append piece (String sep (Join (q :: rest) sep)).
Proof. reflexivity. Qed.

Lemma Join_Split s sep : Join (Split s sep) sep = s.
Proof.
  induction s as [|c s IH]; [done|]. simpl.
  destruct (Ascii.eqb c sep) eqn:Hc.
  - apply Ascii.eqb_eq in Hc as ->.
    destruct (Split_cons s sep) as (p & rest & Hs). rewrite Hs in *.
    by rewrite Join_cons, IH.
  - destruct (Split s sep) as [|p [|q rest]]; [by rewrite <- IH..|].
    rewrite Join_cons in *. by rewrite <- IH.
Qed.

Lemma Split_length s sep :
  length (Split s sep)
  = S (length (filter (fun c => Ascii.eqb c sep = true) (list_ascii_of_string s))).
Proof.
  induction s as [|c s IH]; [done|]. simpl.
  destruct (Ascii.eqb c sep) eqn:Hc.
  - rewrite filter_cons_True by done. simpl. by rewrite IH.
  - rewrite filter_cons_False by (by rewrite Hc). rewrite <- IH.
    by destruct (Split s sep).
Qed.

(** [Split] cuts at every separator and loses nothing: no piece has
    the separator in it, there is one piece more than there are
    separators, and the pieces joined by the separator are the string. *)
Theorem Split_round_trip s sep :
  Forall (fun piece => has_sep sep piece = false) (Split s sep)
  /\ length (Split s sep)
     = S (length (filter (fun c => Ascii.eqb c sep = true) (list_ascii_of_string s)))
  /\ Join (Split s sep) sep = s.
Proof. auto using Split_sep_free, Split_length, Join_Split. Qed.


(** X2. What [Run] takes for the owner and the name of a watch key: the
    text before the first slash and the text between the first and the
    second slash (or the end).  Neither has a slash in it, and whatever
    follows a second slash is dropped. *)
Theorem parse_shape repoName owner name :
  parse repoName = Some (owner, name) ->
  has_sep slash owner = false
  /\ has_sep slash name = false
  /\ exists dropped,
       repoName = String.append owner (String slash (String.append name dropped))
       /\ (dropped = EmptyString \/ exists t, dropped = String slash t).
Proof.
  unfold parse. intros Hp.
  pose proof (Split_sep_free repoName slash) as Hfree.
  pose proof (Join_Split repoName slash) as Hjoin.
  destruct (Split repoName slash) as [|o [|n rest]]; try done.
  injection Hp as -> ->.
  apply Forall_cons in Hfree as [Ho Hfree].
  apply Forall_cons in Hfree as [Hn _].
  split; [done|]. split; [done|].
  rewrite Join_cons in Hjoin. destruct rest as [|q rest].
  - exists EmptyString. split; [|by left]. simpl in Hjoin.
    rewrite <- Hjoin. f_equal. f_equal.
    clear. induction name as [|c name IH]; [done|].
    change (String c name = String c (String.append name EmptyString)).
    by f_equal.
  - exists (String slash (Join (q :: rest) slash)). split; [|by eauto].
    by rewrite <- Hjoin, Join_cons.
Qed.

Section MoreOfRun.

Context `{JSONCodec}.
Implicit Types (a : answers) (w : World) (m : relmap).

Lemma query_result_panic r owner name p :
  query_result r owner name = Panics p -> p = NilPointerDereference.
Proof.
  destruct r as [msg|d]; simpl; [done|].
  destruct (as_string (q_ID d)); [|done].
  destruct (q_Edges d) as [|nd rest]; [done|].
  destruct (as_string (node_ID nd)); [|done].
  destruct (q_URL d), (node_URL nd); try done; by intros [= <-].
Qed.

(** X1. The step panics with an index out of range exactly for the watch
    keys that have no slash in them; it then panics at once, before any
    query, whatever the answers and the state. *)
Theorem index_panic_iff_no_slash a repoName w :
  ((exists i n w', body a repoName w = Crash (IndexOutOfRange i n) w')
   <-> has_sep slash repoName = false)
  /\ (body a repoName w = Crash (IndexOutOfRange 1 1) w
      <-> has_sep slash repoName = false).
Proof.
  assert (Hno : has_sep slash repoName = false ->
                body a repoName w = Crash (IndexOutOfRange 1 1) w).
  { intros Hh. eapply body_malformed. by apply Split_single. }
  assert (Hyes : forall i n w', has_sep slash repoName = true ->
                 body a repoName w <> Crash (IndexOutOfRange i n) w').
  { intros i n w' Hh. destruct (Split_several _ _ Hh) as (o & q & rest & Hs).
    rewrite body_flat_eq. unfold body_flat. rewrite Hs.
    destruct (query_result (resp a) o q) as [[nextRepo [err|]]|p] eqn:Hq;
      [done| |].
    - destruct (releases (chk w)) as [m|]; [|done].
      destruct (m !! repoName); [destruct (time.After _ _)|]; done.
    - apply query_result_panic in Hq as ->. done. }
  split; split; try done.
  - intros (i & n & w' & Hb). destruct (has_sep slash repoName) eqn:Hh; [|done].
    by destruct (Hyes i n w').
  - intros Hh. eauto.
  - intros Hb. destruct (has_sep slash repoName) eqn:Hh; [|done].
    by destruct (Hyes 1%nat 1%nat w).
Qed.

(** X3. The start of [Run] always returns and leaves the disk alone.  It
    leaves the map nil in one case only: the map was nil, the state file
    was read, and it holds [null].  In every other case the map is
    allocated when the loop begins. *)
Theorem Run_start_map fault w :
  exists w', Run_start fault w = Done tt w'
    /\ dsk w' = dsk w
    /\ filepath (chk w') = filepath (chk w)
    /\ (releases (chk w') = None
        <-> releases (chk w) = None /\ fault = false
            /\ dsk w !! filepath (chk w) = Some (Text JNull)).
Proof.
  rewrite Run_start_eq, LoadReleases_eq. unfold ReadFile.
  destruct (releases (chk w)) as [m|] eqn:Hm.
  { exists w. rewrite Hm. repeat split; try done. by intros [? _]. }
  destruct fault.
  { eexists. simpl. repeat split; try done. by intros (_ & ? & _). }
  destruct (dsk w !! filepath (chk w)) as [[[|members|]|]|] eqn:Hd; simpl.
  - eexists. by repeat split.
  - unfold Unmarshal. simpl.
    destruct (store members ∅ true) as [m' [|]]; simpl;
      eexists; repeat split; try done; by intros (_ & _ & ?).
  - eexists. simpl. repeat split; try done. by intros (_ & _ & ?).
  - eexists. simpl. repeat split; try done. by intros (_ & _ & ?).
  - eexists. simpl. repeat split; try done. by intros (_ & _ & ?).
Qed.

Lemma rounds_cons env k n repositories w :
  rounds env k (S n) repositories w =
    match cycle_from (env k) 0 repositories w with
    | Done _ w' =>
        rounds env (S k) n repositories
          (mkWorld (chk w') (dsk w') (out w' ++ [EvSleep]))
    | Crash p w' => Crash p w'
    end.
Proof.
  simpl. unfold bind at 1. unfold cycle.
  by destruct (cycle_from (env k) 0 repositories w) as [[] w'|p w'].
Qed.



(** *** What a run keeps *)

Lemma sets_app key tr1 tr2 : sets key (tr1 ++ tr2) = sets key tr1 ++ sets key tr2.
Proof.
  induction tr1 as [|[] tr1 IH]; simpl; try done.
  case_decide; simpl; by rewrite IH.
Qed.

Lemma sets_save_events key wo mo : sets key (save_events wo mo) = [].
Proof. unfold save_events. destruct (MarshalIndent mo), wo; reflexivity. Qed.

Lemma send_persisted_app tr1 tr2 :
  send_persisted tr1 -> send_persisted tr2 -> send_persisted (tr1 ++ tr2).
Proof.
  induction tr1 as [|e tr1 IH]; [done|].
  destruct e; simpl; try (by auto).
  intros [(key & m & rest' & -> & Hm) Hr] H2. split; [|by auto].
  exists key, m, (rest' ++ tr2). by split.
Qed.

Lemma send_persisted_save_events wo mo : send_persisted (save_events wo mo).
Proof. unfold save_events. by destruct (MarshalIndent mo), wo. Qed.

Lemma last_set_app cur l1 l2 :
  last_set (last_set cur l1) l2 = last_set cur (l1 ++ l2).
Proof.
  unfold last_set. destruct l2 as [|r l2 _] using rev_ind.
  - rewrite app_nil_r. simpl. by destruct (last l1).
  - rewrite app_assoc, !last_snoc. done.
Qed.

Lemma rising_app cur l1 l2 :
  rising cur l1 -> rising (last_set cur l1) l2 -> rising cur (l1 ++ l2).
Proof.
  revert cur. induction l1 as [|r l1 IH]; intros cur; simpl.
  - by intros _.
  - intros [Hr H1] H2. split; [done|]. apply IH; [done|].
    revert H2. unfold last_set. simpl.
    destruct l1 as [|r' l1]; [done|]. rewrite last_cons_cons.
    destruct (last (r' :: l1)) eqn:Hl; [done|]. by apply last_None in Hl.
Qed.

Lemma advances_refl w : advances w w [].
Proof.
  unfold advances. rewrite app_nil_r. repeat split; done.
Qed.

Lemma advances_trans w w1 w2 tr1 tr2 :
  advances w w1 tr1 -> advances w1 w2 tr2 -> advances w w2 (tr1 ++ tr2).
Proof.
  intros (Ho1 & Hs1 & He1 & Hd1 & Hf1) (Ho2 & Hs2 & He2 & Hd2 & Hf2).
  unfold advances. rewrite Ho2, Ho1, <- app_assoc.
  split; [done|]. split; [by apply send_persisted_app|].
  split; [|split].
  - intros key. destruct (He1 key) as [Hr1 Hl1], (He2 key) as [Hr2 Hl2].
    rewrite sets_app, <- last_set_app, <- Hl1. split; [|done].
    apply rising_app; [done|]. by rewrite <- Hl1.
  - intros path Hne. rewrite Hd2, Hd1; congruence.
  - congruence.
Qed.

Lemma advances_emit w e :
  match e with EvSend _ | EvMapSet _ _ => False | _ => True end ->
  advances w (mkWorld (chk w) (dsk w) (out w ++ [e])) [e].
Proof.
  intros He. unfold advances, entry. simpl.
  destruct e; try done; repeat split; done.
Qed.

Lemma save_disk_frame wo c (d : gmap string data) path :
  path <> filepath c -> save_disk wo c d !! path = d !! path.
Proof.
  intros Hne. unfold save_disk. destruct (MarshalIndent (releases c)); [|done].
  destruct wo; simpl; by rewrite ?lookup_insert_ne.
Qed.

(** The step where the snapshot is stored, sent first or not. *)
Lemma advances_stored wo w m repoName nextRepo tr0 :
  releases (chk w) = Some m ->
  sent tr0 = [] \/ (exists tr1, tr0 = tr1 ++ [EvSend nextRepo] /\ sent tr1 = []) ->
  sets repoName tr0 = [] ->
  (forall key, sets key tr0 = []) ->
  (forall c, m !! repoName = Some c -> publishedAt c < publishedAt nextRepo) ->
  advances w (stored wo w (<[repoName := nextRepo]> m) (tr0 ++ [EvMapSet repoName nextRepo]))
    (tr0 ++ [EvMapSet repoName nextRepo]
         ++ save_events wo (Some (<[repoName := nextRepo]> m))).
Proof.
  intros Hm Hsent _ Hsets Hnew. unfold advances, stored, saved, entry.
  cbn [out chk dsk releases set_releases filepath].
  split; [by rewrite <- !app_assoc|]. split; [|split; [|split]].
  - assert (Hq : send_persisted
                   ([EvMapSet repoName nextRepo]
                      ++ save_events wo (Some (<[repoName := nextRepo]> m))))
      by (simpl; apply send_persisted_save_events).
    destruct Hsent as [Hs | (tr1 & -> & Hs)].
    + apply send_persisted_app; [|done].
      clear -Hs. induction tr0 as [|[] tr0 IH]; simpl in *; try done; auto.
    + rewrite <- app_assoc. apply send_persisted_app.
      * clear -Hs. induction tr1 as [|[] tr1 IH]; simpl in *; try done; auto.
      * simpl. split; [|apply send_persisted_save_events].
        unfold save_events. eexists _, _, _. split; [reflexivity|].
        apply lookup_insert_eq.
  - intros key. rewrite !sets_app, Hsets, sets_save_events, Hm. simpl.
    destruct (decide (repoName = key)) as [<-|Hne]; simpl.
    + rewrite lookup_insert_eq. split; [|done]. split; [|done].
      destruct (m !! repoName) as [c|] eqn:Hc; [|done]. by apply Hnew.
    + by rewrite lookup_insert_ne.
  - intros path Hne. by apply save_disk_frame.
  - done.
Qed.

Lemma body_advances a repoName w :
  exists tr, advances w (final (body a repoName w)) tr /\ (length (sent tr) <= 1)%nat.
Proof.
  rewrite body_flat_eq. unfold body_flat.
  assert (Hplain : forall tr0, sent tr0 = [] -> (forall key, sets key tr0 = []) ->
                     advances w (after w tr0) tr0).
  { intros tr0 Hs Hk. unfold advances, after, entry. simpl.
    split; [done|]. split; [|split; [|done]].
    - clear -Hs. induction tr0 as [|[] tr0 IH]; simpl in *; try done; auto.
    - intros key. by rewrite Hk. }
  destruct (Split repoName slash) as [|owner [|name rest]] eqn:Hs.
  - exists []. split; [apply advances_refl|simpl; lia].
  - exists []. split; [apply advances_refl|simpl; lia].
  - destruct (query_result (resp a) owner name) as [[nextRepo [err|]]|p] eqn:Hq.
    + eexists. split; [by apply Hplain|simpl; lia].
    + destruct (releases (chk w)) as [m|] eqn:Hm.
      * destruct (m !! repoName) as [currRepo|] eqn:Hk;
          [destruct (time.After _ _) eqn:Ha|].
        -- eexists. split.
           ++ apply (advances_stored (wout a) w m repoName nextRepo
                       [EvQuery owner name; EvLog LvlInfo "repository checked";
                        EvMapGet repoName; EvLog LvlInfo "new release found";
                        EvSend nextRepo]); try done.
              ** right. by exists [EvQuery owner name; EvLog LvlInfo "repository checked";
                                   EvMapGet repoName; EvLog LvlInfo "new release found"].
              ** intros c Hc. rewrite Hk in Hc. injection Hc as <-.
                 rewrite After_publishedAt in Ha.
                 by apply bool_decide_eq_true in Ha.
           ++ rewrite !sent_app, sent_save_events. simpl. lia.
        -- eexists. split; [by apply Hplain|simpl; lia].
        -- eexists. split.
           ++ apply (advances_stored (wout a) w m repoName nextRepo
                       [EvQuery owner name; EvLog LvlInfo "repository checked";
                        EvMapGet repoName]); try done.
              ** by left.
              ** intros c Hc. by rewrite Hk in Hc.
           ++ rewrite !sent_app, sent_save_events. simpl. lia.
      * eexists. split; [by apply Hplain|simpl; lia].
    + eexists. split; [by apply Hplain|simpl; lia].
Qed.

Lemma cycle_from_advances env repositories : forall i w,
  exists tr, advances w (final (cycle_from env i repositories w)) tr
    /\ (length (sent tr) <= length repositories)%nat.
Proof.
  induction repositories as [|repoName rest IH]; intros i w.
  - exists []. split; [apply advances_refl|simpl; lia].
  - rewrite cycle_from_cons.
    destruct (body_advances (env i) repoName w) as (tr1 & Ha1 & Hl1).
    destruct (body (env i) repoName w) as [[] w1|p w1]; simpl in *.
    + destruct (IH (S i) w1) as (tr2 & Ha2 & Hl2).
      exists (tr1 ++ tr2). split; [by eapply advances_trans|].
      rewrite sent_app, length_app. lia.
    + exists tr1. split; [done|lia].
Qed.

Lemma rounds_advances env repositories n : forall k w,
  exists tr, advances w (final (rounds env k n repositories w)) tr
    /\ (length (sent tr) <= n * length repositories)%nat.
Proof.
  induction n as [|n IH]; intros k w.
  - exists []. split; [apply advances_refl|simpl; lia].
  - rewrite rounds_cons.
    destruct (cycle_from_advances (env k) repositories 0%nat w) as (tr1 & Ha1 & Hl1).
    destruct (cycle_from (env k) 0 repositories w) as [[] w1|p w1]; simpl in *.
    + destruct (IH (S k) (mkWorld (chk w1) (dsk w1) (out w1 ++ [EvSleep])))
        as (tr2 & Ha2 & Hl2).
      exists (tr1 ++ [EvSleep] ++ tr2). split.
      * eapply advances_trans; [done|].
        eapply advances_trans; [|done]. by apply (advances_emit w1 EvSleep).
      * rewrite !sent_app, !length_app. simpl. lia.
    + exists tr1. split; [done|lia].
Qed.

Lemma Run_start_frame fault w :
  exists w0 tr0, Run_start fault w = Done tt w0
    /\ out w0 = out w ++ tr0
    /\ dsk w0 = dsk w
    /\ filepath (chk w0) = filepath (chk w)
    /\ sent tr0 = [] /\ saves tr0 = O /\ send_persisted tr0.
Proof.
  rewrite Run_start_eq, LoadReleases_eq.
  destruct (releases (chk w)) as [m|]; simpl.
  { exists w, []. by rewrite app_nil_r. }
  destruct (ReadFile fault (dsk w) (filepath (chk w))) as [bytes|[]]; simpl.
  - destruct (Unmarshal bytes None) as [m' [|]]; simpl.
    + eexists _, []. simpl. by rewrite app_nil_r.
    + by eexists _, [_].
  - eexists _, []. simpl. by rewrite app_nil_r.
  - by eexists _, [_].
Qed.

Lemma rising_last c l :
  rising (Some c) l ->
  exists r', last_set (Some c) l = Some r' /\ publishedAt c <= publishedAt r'.
Proof.
  revert c. induction l as [|r l IH]; intros c; simpl.
  - intros _. exists c. split; [done|lia].
  - intros [Hc Hl]. destruct (IH r Hl) as (r' & Hr' & Hle).
    exists r'. split; [|unfold publishedAt in *; lia].
    revert Hr'. unfold last_set. destruct l as [|r2 l]; [done|].
    rewrite last_cons_cons.
    destruct (last (r2 :: l)) eqn:Hlast; [done|]. by apply last_None in Hlast.
Qed.


(** X5. What is written under a key rises.  Over any number of rounds,
    the snapshots written under one key are each published strictly after
    the one written before, the first strictly after the entry the key
    had (when it had one), and the entry at the end is the last snapshot
    written, or the entry at the start when none was. *)
Theorem writes_rise env k n repositories w key :
  exists tr,
    out (final (rounds env k n repositories w)) = out w ++ tr
    /\ rising (entry w key) (sets key tr)
    /\ entry (final (rounds env k n repositories w)) key
       = last_set (entry w key) (sets key tr).
Proof.
  destruct (rounds_advances env repositories n k w)
    as (tr & (Hout & _ & He & _) & _).
  exists tr. split; [done|]. apply He.
Qed.

(** X6. The state only advances.  Over a step, a pass and any number of
    rounds, a key that has an entry keeps one, and the release of its
    entry is never published earlier than the one before: no entry is
    dropped and none goes back in time, be the run cut short by a panic
    or not. *)
Theorem entries_only_advance env k n repositories w key r :
  entry w key = Some r ->
  (forall a repoName,
     exists r', entry (final (body a repoName w)) key = Some r'
       /\ publishedAt r <= publishedAt r')
  /\ (exists r', entry (final (cycle (env k) repositories w)) key = Some r'
        /\ publishedAt r <= publishedAt r')
  /\ (exists r', entry (final (rounds env k n repositories w)) key = Some r'
        /\ publishedAt r <= publishedAt r').
Proof.
  intros He. split; [|split].
  - intros a repoName.
    destruct (body_advances a repoName w) as (tr & (_ & _ & Hk & _) & _).
    destruct (Hk key) as [Hr ->]. rewrite He in *. by apply rising_last.
  - destruct (cycle_from_advances (env k) repositories 0%nat w)
      as (tr & (_ & _ & Hk & _) & _).
    destruct (Hk key) as [Hr Hl]. unfold cycle. rewrite Hl, He in *.
    by apply rising_last.
  - destruct (rounds_advances env repositories n k w)
      as (tr & (_ & _ & Hk & _) & _).
    destruct (Hk key) as [Hr ->]. rewrite He in *. by apply rising_last.
Qed.


(** X8. [Run] changes no file but the state file of the checker, and the
    checker keeps its path. *)
Theorem other_files_untouched fault env n repositories w path :
  path <> filepath (chk w) ->
  dsk (final (Run fault env n repositories w)) !! path = dsk w !! path
  /\ filepath (chk (final (Run fault env n repositories w))) = filepath (chk w).
Proof.
  intros Hne. unfold Run, bind.
  destruct (Run_start_frame fault w) as (w0 & tr0 & -> & _ & Hd0 & Hf0 & _).
  destruct (rounds_advances env repositories n 0%nat w0)
    as (tr & (_ & _ & _ & Hd & Hf) & _).
  rewrite Hd, Hf, Hd0, Hf0 by congruence. done.
Qed.

(** *** The first pass, and a pass that finds nothing new *)

Lemma body_absent a repoName w m :
  releases (chk w) = Some m ->
  m !! repoName = None ->
  sent (out (final (body a repoName w))) = sent (out w)
  /\ exists m', releases (chk (final (body a repoName w))) = Some m'
       /\ forall key, key <> repoName -> m' !! key = m !! key.
Proof.
  intros Hm Hk. rewrite body_flat_eq. unfold body_flat.
  destruct (Split repoName slash) as [|owner [|name rest]]; [by eauto..|].
  destruct (query_result (resp a) owner name) as [[nextRepo [err|]]|p]; simpl.
  - rewrite sent_app. simpl. rewrite app_nil_r. eauto.
  - rewrite Hm, Hk. unfold stored, saved.
    cbn [final out chk releases set_releases].
    rewrite !sent_app, sent_save_events. simpl. rewrite !app_nil_r.
    split; [done|]. eexists. split; [done|].
    intros key Hne. by apply lookup_insert_ne.
  - rewrite sent_app. simpl. rewrite app_nil_r. eauto.
Qed.

Lemma cycle_from_silent env repositories : forall i w m,
  releases (chk w) = Some m ->
  NoDup repositories ->
  (forall key, key ∈ repositories -> m !! key = None) ->
  sent (out (final (cycle_from env i repositories w))) = sent (out w).
Proof.
  induction repositories as [|repoName rest IH]; intros i w m Hm Hnd Habs; [done|].
  apply NoDup_cons in Hnd as [Hnot Hnd].
  destruct (body_absent (env i) repoName w m Hm) as (Hs & m' & Hm' & Hf).
  { apply Habs. by left. }
  rewrite cycle_from_cons.
  destruct (body (env i) repoName w) as [[] w1|p w1]; simpl in *; [|done].
  rewrite (IH (S i) w1 m' Hm' Hnd); [done|].
  intros key Hin. rewrite Hf; [apply Habs; by right|].
  intros ->. done.
Qed.

(** X9. No flood at the start.  A pass over distinct keys none of which
    is in the map sends nothing, whatever the queries return.  So the
    first round of a checker that starts without a state file, or cannot
    read it, sends nothing. *)
Theorem first_pass_silent env repositories :
  NoDup repositories ->
  (forall w m,
     releases (chk w) = Some m ->
     (forall key, key ∈ repositories -> m !! key = None) ->
     sent (out (final (cycle (env 0%nat) repositories w))) = sent (out w))
  /\
  (forall fault w,
     releases (chk w) = None ->
     fault = true \/ dsk w !! filepath (chk w) = None ->
     sent (out (final (Run fault env 1 repositories w))) = sent (out w)).
Proof.
  intros Hnd. split.
  - intros w m Hm Habs. by eapply cycle_from_silent.
  - intros fault w Hnil Hfile. unfold Run, bind.
    assert (Hstart : exists w0, Run_start fault w = Done tt w0
                       /\ releases (chk w0) = Some ∅ /\ sent (out w0) = sent (out w)).
    { rewrite Run_start_eq, LoadReleases_eq, Hnil. unfold ReadFile.
      destruct Hfile as [-> | Hd].
      - eexists. split; [done|]. simpl. rewrite sent_app. simpl.
        by rewrite app_nil_r.
      - destruct fault.
        + eexists. split; [done|]. simpl. rewrite sent_app. simpl.
          by rewrite app_nil_r.
        + rewrite Hd. by eexists. }
    destruct Hstart as (w0 & -> & Hm0 & Hs0).
    rewrite rounds_cons.
    pose proof (cycle_from_silent (env 0%nat) repositories 0%nat w0 ∅ Hm0 Hnd
                  (fun key _ => lookup_empty key)) as Hc.
    destruct (cycle_from (env 0%nat) 0 repositories w0) as [[] w1|p w1];
      simpl in *; [|congruence].
    rewrite sent_app. simpl. rewrite app_nil_r. congruence.
Qed.

Lemma body_nothing_new a repoName w m :
  releases (chk w) = Some m ->
  nothing_new m a repoName ->
  exists tr, body a repoName w = Done tt (after w tr)
    /\ sent tr = [] /\ saves tr = O.
Proof.
  intros Hm (owner & name & rest & Hs & [(r & err & Hq) | (nextRepo & currRepo & Hq & Hk & Hle)]).
  - eexists. split; [by eapply body_query_fails|done].
  - eexists. split.
    + eapply body_not_newer; eauto. rewrite After_publishedAt.
      by apply bool_decide_eq_false, Z.le_ngt.
    + done.
Qed.

Lemma cycle_from_nothing_new env repositories m : forall i w,
  releases (chk w) = Some m ->
  (forall j repoName, repositories !! j = Some repoName ->
                      nothing_new m (env (i + j)%nat) repoName) ->
  exists tr, cycle_from env i repositories w = Done tt (after w tr)
    /\ sent tr = [] /\ saves tr = O.
Proof.
  induction repositories as [|repoName rest IH]; intros i w Hm Hall.
  - exists []. unfold after. simpl. by rewrite app_nil_r; destruct w.
  - destruct (body_nothing_new (env i) repoName w m Hm) as (tr1 & Hb & Hs1 & Hv1).
    { specialize (Hall 0%nat repoName eq_refl). by rewrite Nat.add_0_r in Hall. }
    destruct (IH (S i) (after w tr1) Hm) as (tr2 & Hc & Hs2 & Hv2).
    { intros j k Hj. specialize (Hall (S j) k Hj).
      by replace (S i + j)%nat with (i + S j)%nat by lia. }
    exists (tr1 ++ tr2). rewrite cycle_from_cons, Hb, Hc.
    unfold after. simpl. rewrite <- app_assoc, sent_app, saves_app, Hs1, Hs2, Hv1, Hv2.
    done.
Qed.

(** X10. A pass that finds nothing new changes nothing.  When every key of
    the list splits and its query either fails or returns a snapshot not
    newer than the entry of the key, the pass returns with the checker and
    the disk as they were: it sends nothing and calls no save. *)
Theorem steady_pass env repositories w m :
  releases (chk w) = Some m ->
  (forall j repoName, repositories !! j = Some repoName ->
                      nothing_new m (env j) repoName) ->
  exists w', cycle env repositories w = Done tt w'
    /\ chk w' = chk w
    /\ dsk w' = dsk w
    /\ sent (out w') = sent (out w)
    /\ saves (out w') = saves (out w).
Proof.
  intros Hm Hall.
  destruct (cycle_from_nothing_new env repositories m 0%nat w Hm Hall)
    as (tr & Hc & Hs & Hv).
  eexists. split; [exact Hc|]. unfold after. simpl.
  rewrite sent_app, saves_app, Hs, Hv, app_nil_r. repeat split; lia.
Qed.

(** *** The state file follows the map *)


Lemma in_sync_same w w' :
  chk w' = chk w -> dsk w' = dsk w -> in_sync w -> in_sync w'.
Proof. unfold in_sync. by intros -> ->. Qed.







End MoreOfRun.

(** *** The loop of [main] *)

Section MoreOfMain.

Context `{JSONCodec}.
Variable IsNonstable : Release.t -> bool.

Lemma slacked_app tr1 tr2 : slacked (tr1 ++ tr2) = slacked tr1 ++ slacked tr2.
Proof. induction tr1 as [|[] tr1 IH]; simpl; by rewrite ?IH. Qed.

Lemma dispatch_slacked c sink received : forall i,
  slacked (dispatch IsNonstable c sink i received) = filter (fun r => passes IsNonstable c r = true) received.
Proof.
  induction received as [|r rest IH]; intros i; [done|].
  simpl. rewrite slacked_app, IH. unfold handle.
  destruct (IgnoreNonstable c && IsNonstable (Repository.Release r)) eqn:Hp.
  - rewrite filter_cons_False; [done|]. unfold passes. by rewrite Hp.
  - rewrite filter_cons_True by (unfold passes; by rewrite Hp).
    by destruct (sink i).
Qed.

(** X13. The loop of [main] hands every value it receives to Slack once,
    in the order received, but for the non-stable releases when
    [IgnoreNonstable] is set; a delivery that fails is not tried again and
    does not keep the values after it from being handed over. *)
Theorem dispatch_delivers c sink i received :
  slacked (dispatch IsNonstable c sink i received) = filter (fun r => passes IsNonstable c r = true) received
  /\ (IgnoreNonstable c = false ->
      slacked (dispatch IsNonstable c sink i received) = received).
Proof.
  split; [apply dispatch_slacked|].
  intros Hi. rewrite dispatch_slacked.
  induction received as [|r rest IH]; [done|].
  rewrite filter_cons_True by (unfold passes; by rewrite Hi). by rewrite IH.
Qed.


(** X15. What the logger of the checker prints when nothing is new.  The
    level is chosen by the lowered [LogLevel].  A failed query prints its
    warning at every level but [error], where it prints nothing.  A
    snapshot that is not newer prints [repository checked] at the levels
    debug and info (the default), the line [no new release for repository]
    at the level debug only, and nothing at warn and error. *)
Theorem what_is_logged c a repoName owner name rest w :
  isASCII (LogLevel c) = true ->
  Split repoName slash = owner :: name :: rest ->
  (forall r err,
     query_result (resp a) owner name = Returns (r, Some err) ->
     exists tr, body a repoName w = Done tt (after w tr)
       /\ printed (level_filter c) tr
          = if String.eqb (ToLower (LogLevel c)) "error" then []
            else [(LvlWarn, "failed to query the repository's releases")])
  /\
  (forall m nextRepo currRepo,
     query_result (resp a) owner name = Returns (nextRepo, None) ->
     releases (chk w) = Some m ->
     m !! repoName = Some currRepo ->
     publishedAt nextRepo <= publishedAt currRepo ->
     exists tr, body a repoName w = Done tt (after w tr)
       /\ printed (level_filter c) tr
          = if String.eqb (ToLower (LogLevel c)) "debug"
            then [(LvlInfo, "repository checked");
                  (LvlDebug, "no new release for repository")]
            else if String.eqb (ToLower (LogLevel c)) "warn" then []
            else if String.eqb (ToLower (LogLevel c)) "error" then []
            else [(LvlInfo, "repository checked")]).
Proof.
  intros _ Hs. unfold level_filter. split.
  - intros r err Hq. eexists. split; [by eapply body_query_fails|].
    destruct (String.eqb (ToLower (LogLevel c)) "debug") eqn:Hd.
    { apply String.eqb_eq in Hd. by rewrite Hd. }
    destruct (String.eqb (ToLower (LogLevel c)) "warn") eqn:Hw.
    { apply String.eqb_eq in Hw. by rewrite Hw. }
    by destruct (String.eqb (ToLower (LogLevel c)) "error").
  - intros m nextRepo currRepo Hq Hm Hk Hle. eexists. split.
    + eapply body_not_newer; eauto. rewrite After_publishedAt.
      by apply bool_decide_eq_false, Z.le_ngt.
    + destruct (String.eqb (ToLower (LogLevel c)) "debug"); [done|].
      destruct (String.eqb (ToLower (LogLevel c)) "warn"); [done|].
      by destruct (String.eqb (ToLower (LogLevel c)) "error").
Qed.

End MoreOfMain.

(** *** Saves that fail *)

Section FailedSaves.

Context `{JSONCodec}.
Implicit Types (a : answers) (w : World) (m : relmap).

Lemma MarshalIndent_unencodable m key r :
  m !! key = Some r -> enc r = None -> MarshalIndent (Some m) = None.
Proof.
  intros Hk He. unfold MarshalIndent.
  destruct (mapM marshal_member (map_to_list m)) as [members|] eqn:Hm; [|done].
  exfalso. assert (Hs : is_Some (mapM marshal_member (map_to_list m))) by eauto.
  apply mapM_is_Some in Hs. rewrite Forall_forall in Hs.
  specialize (Hs (key, r)). simpl in Hs.
  destruct Hs as [x Hx]; [by apply elem_of_map_to_list|].
  unfold marshal_member in Hx. simpl in Hx. by rewrite He in Hx.
Qed.

(** X16. One snapshot that cannot be encoded blocks every save.  While
    the map holds such a snapshot, [SaveReleases] returns the marshalling
    error and leaves the disk alone, and a step for any other key, though
    it may change the map and send, leaves the disk as it was. *)
Theorem unencodable_blocks_save wo w m key r :
  releases (chk w) = Some m ->
  m !! key = Some r ->
  enc r = None ->
  SaveReleases wo w = Done (Some ErrMarshal) (after w [EvSave (Some m)])
  /\ forall a repoName,
       repoName <> key -> dsk (final (body a repoName w)) = dsk w.
Proof.
  intros Hm Hk He. split.
  - unfold SaveReleases. run. rewrite Hm.
    by rewrite (MarshalIndent_unencodable m key r Hk He).
  - intros a repoName Hne. rewrite body_flat_eq. unfold body_flat.
    destruct (Split repoName slash) as [|owner [|name rest]]; [done..|].
    destruct (query_result (resp a) owner name) as [[nextRepo [err|]]|p];
      [done| |done].
    rewrite Hm.
    assert (Hblocked : forall tr,
              dsk (stored (wout a) w (<[repoName := nextRepo]> m) tr) = dsk w).
    { intros tr. unfold stored, saved, save_disk.
      cbn [dsk chk releases set_releases].
      rewrite (MarshalIndent_unencodable _ key r); [done| |done].
      by rewrite lookup_insert_ne. }
    destruct (m !! repoName); [destruct (time.After _ _)|]; cbn [final];
      first [apply Hblocked | done].
Qed.

(** X17. A failed save is paid with a second notification.  When the step
    finds a newer release and sends it, but the state file cannot be
    written and keeps the old state, a checker restarted on that disk
    begins with the old map, and its step for the key, given the same
    answer, sends the same release again. *)
Theorem failed_save_resends a repoName owner name rest w m currRepo nextRepo :
  Split repoName slash = owner :: name :: rest ->
  query_result (resp a) owner name = Returns (nextRepo, None) ->
  releases (chk w) = Some m ->
  m !! repoName = Some currRepo ->
  publishedAt currRepo < publishedAt nextRepo ->
  in_sync w ->
  wout a = WriteFailsUntouched ->
  exists w1 w2,
    body a repoName w = Done tt w1
    /\ sent (out w1) = sent (out w) ++ [nextRepo]
    /\ entry w1 repoName = Some nextRepo
    /\ Run_start false (mkWorld (mkChecker None (filepath (chk w1))) (dsk w1) [])
       = Done tt w2
    /\ releases (chk w2) = Some m
    /\ sent (out (final (body a repoName w2))) = sent (out w2) ++ [nextRepo].
Proof.
  intros Hs Hq Hm Hk Hlt (w2 & Hl & Hr) Hw.
  assert (Ha : time.After (Release.PublishedAt (Repository.Release nextRepo))
                 (Release.PublishedAt (Repository.Release currRepo)) = true).
  { rewrite After_publishedAt. by apply bool_decide_eq_true. }
  assert (Hd : forall tr, dsk (stored (wout a) w (<[repoName := nextRepo]> m) tr) = dsk w).
  { intros tr. unfold stored, saved, save_disk. cbn [dsk chk releases set_releases].
    rewrite Hw. by destruct (MarshalIndent _). }
  eexists _, w2. split; [by eapply body_newer|].
  rewrite Hd. unfold stored at 1 2, saved, entry.
  cbn [out chk releases set_releases filepath].
  rewrite !sent_app, sent_save_events. simpl. rewrite app_nil_r, lookup_insert_eq.
  split; [done|]. split; [done|].
  rewrite Run_start_eq. cbn [chk releases]. rewrite Hl.
  split; [done|]. rewrite Hr, Hm. split; [done|].
  erewrite body_newer; eauto; [|by rewrite Hr].
  unfold stored, saved. cbn [final out]. rewrite !sent_app, sent_save_events.
  simpl. by rewrite app_nil_r.
Qed.

End FailedSaves.

(** ** More of the program at work on the scenarios *)

Module Deployment.

Import Scenario.

(** The arguments of a deployment that watches acme/widget and logs
    errors only. *)
Definition config : Config :=
  mkConfig "token" 3600000000000 "ERROR" [watched] "https://hooks.example/T" true
    "releases.json".

(** The checker of scenario 1 after its first pass, with its state file. *)
Definition running : @World plain :=
  mkWorld (mkChecker (Some seen_v100) "releases.json") state_file [].

(** The source answers v1.1.0 in every round. *)
Definition always_v110 (k i : nat) : answers := gives (answer "v1.1.0" v110_url feb1).

(** A release is taken for non-stable when its name has a dash in it. *)
Definition dashed (r : Release.t) : bool := has_sep "-"%char (Release.Name r).

Definition rc_url : url.URL :=
  url.mkURL "https" "" None "github.com" "/acme/widget/releases/tag/v1.1.0-rc1" "" false "" "".

Definition v110_rc : Repository.t := snapshot "v1.1.0-rc1" rc_url jan1.

(** Slack refuses the first delivery and takes the others. *)
Definition first_fails (i : nat) : bool :=
  match i with
  | O => false
  | _ => true
  end.

End Deployment.

Section MoreWitnesses.

Import Scenario Deployment.
Existing Instance plain.

(** X2 on acme/widget. *)
Lemma parse_shape_witness :
  has_sep slash "acme" = false
  /\ has_sep slash "widget" = false
  /\ exists dropped,
       watched = String.append "acme" (String slash (String.append "widget" dropped))
       /\ (dropped = EmptyString \/ exists t, dropped = String slash t).
Proof. exact (parse_shape watched "acme" "widget" eq_refl). Defined.


(** X6 on scenario 2. *)
Lemma entries_only_advance_witness :
  (forall a repoName,
     exists r', entry (final (body a repoName running)) watched = Some r'
       /\ publishedAt v100 <= publishedAt r')
  /\ (exists r', entry (final (cycle (always_v110 0%nat) [watched] running)) watched = Some r'
        /\ publishedAt v100 <= publishedAt r')
  /\ (exists r', entry (final (rounds always_v110 0 3 [watched] running)) watched = Some r'
        /\ publishedAt v100 <= publishedAt r').
Proof.
  apply (entries_only_advance always_v110 0%nat 3%nat [watched] running watched v100).
  reflexivity.
Defined.

(** X8: another file on the disk. *)
Lemma other_files_untouched_witness :
  dsk (final (Run false always_v110 2 [watched] running)) !! "notes.txt"
  = dsk running !! "notes.txt"
  /\ filepath (chk (final (Run false always_v110 2 [watched] running)))
     = filepath (chk running).
Proof.
  apply (other_files_untouched false always_v110 2%nat [watched] running "notes.txt").
  discriminate.
Defined.

(** X9 on scenario 1. *)
Lemma first_pass_silent_witness :
  (forall w m,
     releases (chk w) = Some m ->
     (forall key, key ∈ [watched] -> m !! key = None) ->
     sent (out (final (cycle (three_rounds 0%nat) [watched] w))) = sent (out w))
  /\
  (forall fault w,
     releases (chk w) = None ->
     fault = true \/ dsk w !! filepath (chk w) = None ->
     sent (out (final (Run fault three_rounds 1 [watched] w))) = sent (out w)).
Proof.
  apply (first_pass_silent three_rounds [watched]). apply NoDup_singleton.
Defined.

Lemma nothing_new_v110 j repoName :
  [watched] !! j = Some repoName ->
  nothing_new seen_v110 (always_v110 0%nat j) repoName.
Proof.
  destruct j as [|j]; [|done]. intros [= <-].
  exists "acme", "widget", []. split; [done|]. right.
  exists v110, v110. repeat split. unfold publishedAt. lia.
Qed.

(** X10 on scenario 3. *)
Lemma steady_pass_witness :
  exists w', cycle (always_v110 0%nat) [watched] (start (Some seen_v110)) = Done tt w'
    /\ chk w' = chk (start (Some seen_v110))
    /\ dsk w' = dsk (start (Some seen_v110))
    /\ sent (out w') = sent (out (start (Some seen_v110)))
    /\ saves (out w') = saves (out (start (Some seen_v110))).
Proof.
  apply (steady_pass (always_v110 0%nat) [watched] (start (Some seen_v110)) seen_v110).
  - reflexivity.
  - apply nothing_new_v110.
Defined.

Lemma in_sync_running : in_sync running.
Proof.
  exists running. split; [by_computation|reflexivity].
Qed.




(** X15 with [LogLevel] ERROR: a failed query prints nothing, and neither
    does a release that is not newer. *)
Lemma what_is_logged_witness :
  (exists tr, body (gives no_releases) watched running = Done tt (after running tr)
     /\ printed (level_filter config) tr
        = if String.eqb (ToLower (LogLevel config)) "error" then []
          else [(LvlWarn, "failed to query the repository's releases")])
  /\
  (exists tr, body (gives (answer "v1.0.0" v100_url jan1)) watched running
              = Done tt (after running tr)
     /\ printed (level_filter config) tr
        = if String.eqb (ToLower (LogLevel config)) "debug"
          then [(LvlInfo, "repository checked");
                (LvlDebug, "no new release for repository")]
          else if String.eqb (ToLower (LogLevel config)) "warn" then []
          else if String.eqb (ToLower (LogLevel config)) "error" then []
          else [(LvlInfo, "repository checked")]).
Proof.
  split.
  - apply (proj1 (what_is_logged config (gives no_releases) watched
                    "acme" "widget" [] running eq_refl eq_refl)
             Repository.zero (ErrNoReleases "acme" "widget")).
    reflexivity.
  - apply (proj2 (what_is_logged config (gives (answer "v1.0.0" v100_url jan1)) watched
                    "acme" "widget" [] running eq_refl eq_refl)
             seen_v100 v100 v100); reflexivity.
Defined.

(** X16: foo/bar holds a release of the year 10000. *)
Lemma unencodable_blocks_save_witness :
  SaveReleases WriteOk (start (Some {[ "foo/bar" := bar year_10000 ]}))
  = Done (Some ErrMarshal)
      (after (start (Some {[ "foo/bar" := bar year_10000 ]}))
         [EvSave (Some {[ "foo/bar" := bar year_10000 ]})])
  /\ forall a repoName,
       repoName <> "foo/bar" ->
       dsk (final (body a repoName (start (Some {[ "foo/bar" := bar year_10000 ]}))))
       = dsk (start (Some {[ "foo/bar" := bar year_10000 ]})).
Proof.
  apply (unencodable_blocks_save WriteOk (start (Some {[ "foo/bar" := bar year_10000 ]}))
           {[ "foo/bar" := bar year_10000 ]} "foo/bar" (bar year_10000));
    reflexivity.
Defined.

(** X17 on scenario 2, the disk refusing the write. *)
Lemma failed_save_resends_witness :
  exists w1 w2,
    body (mkAnswers (answer "v1.1.0" v110_url feb1) WriteFailsUntouched) watched running
    = Done tt w1
    /\ sent (out w1) = sent (out running) ++ [v110]
    /\ entry w1 watched = Some v110
    /\ Run_start false (mkWorld (mkChecker None (filepath (chk w1))) (dsk w1) [])
       = Done tt w2
    /\ releases (chk w2) = Some seen_v100
    /\ sent (out (final (body (mkAnswers (answer "v1.1.0" v110_url feb1)
                                 WriteFailsUntouched) watched w2)))
       = sent (out w2) ++ [v110].
Proof.
  apply (failed_save_resends
           (mkAnswers (answer "v1.1.0" v110_url feb1) WriteFailsUntouched)
           watched "acme" "widget" [] running seen_v100 v100 v110);
    try reflexivity.
  apply in_sync_running.
Defined.

(** X13: three values received, the first delivery failing; and the same
    with the filter off. *)
Lemma dispatch_delivers_witness :
  slacked (dispatch dashed config first_fails 0 [v100; v110_rc; v110]) = [v100; v110]
  /\ slacked (dispatch dashed
                (mkConfig "token" 3600000000000 "info" [watched] "" false "releases.json")
                first_fails 0 [v100; v110_rc; v110])
     = [v100; v110_rc; v110].
Proof.
  split.
  - rewrite (proj1 (dispatch_delivers dashed config first_fails 0%nat
                      [v100; v110_rc; v110])).
    reflexivity.
  - apply (dispatch_delivers dashed
             (mkConfig "token" 3600000000000 "info" [watched] "" false "releases.json")
             first_fails 0%nat [v100; v110_rc; v110]).
    reflexivity.
Defined.


(** Scenarios 1 to 3 seen from [main]: Slack gets v1.1.0, once. *)
Example main_scenario :
  slacked (main_out (main dashed config ∅ false three_rounds first_fails 3)) = [v110].
Proof. by_computation. Qed.

(** The filter of the deployment is the one of the level error. *)
Example config_level : level_filter config = AllowError.
Proof. reflexivity. Qed.

End MoreWitnesses.
